(** * find_church_emails.py: a shallow embedding and its properties

    The script crawls the websites of a church directory, looks for links
    to contact-like pages, collects the e-mail addresses found on them and
    writes a table of (url, email) rows.

    Conventions of the embedding.
    - A Python [str] is a [string]; a character is read as its code point
      (0..255), which is what the character classes below test.
    - The regular expressions of the script are kept in parsed form (a
      sequence of quantified character classes) and run by a greedy
      backtracking matcher, as [re] does.
    - Coroutines are terms of a small resumption monad [Coro]: synchronous
      code reads and writes the shared [World] (the module-level cache, the
      coroutine objects, the log), and the only suspension point is the
      HTTP request inside [fetch].
    - [asyncio.as_completed] is an event loop over such terms, driven by an
      arbitrary environment that chooses which pending request completes
      next and with which outcome. *)

From Stdlib Require Import String Ascii List Bool Arith NArith Lia Wellfounded.
From ExtLib Require Import Structures.Monad Structures.MonadExc.
Import ListNotations.
Import MonadNotation.
Local Open Scope string_scope.
Local Open Scope list_scope.
Local Open Scope monad_scope.
Local Open Scope nat_scope.

Set Implicit Arguments.

(* ===================================================================== *)
(** ** Strings *)
(* ===================================================================== *)

Module Str.

Definition code (c : ascii) : nat := nat_of_ascii c.

Definition between (lo hi : nat) (c : ascii) : bool :=
  (lo <=? code c) && (code c <=? hi).

Definition is_char (x c : ascii) : bool := Ascii.eqb x c.

Definition one_of (cs : string) (c : ascii) : bool :=
  existsb (fun x => Ascii.eqb x c) (list_ascii_of_string cs).

(** [str.lower] on code points below 256: A-Z and the Latin-1 capitals
    (0xC0..0xDE except the multiplication sign 0xD7) move up by 32. *)
Definition lower_char (c : ascii) : ascii :=
  if between 65 90 c
     || (between 192 222 c && negb (code c =? 215))
  then ascii_of_nat (code c + 32)
  else c.

Fixpoint lower (s : string) : string :=
  match s with
  | EmptyString => EmptyString
  | String c s' => String (lower_char c) (lower s')
  end.

Fixpoint startswith (p s : string) : bool :=
  match p, s with
  | EmptyString, _ => true
  | String a p', String b s' => Ascii.eqb a b && startswith p' s'
  | String _ _, EmptyString => false
  end.

(** [needle in hay] on Python strings. *)
Fixpoint contains (needle hay : string) : bool :=
  startswith needle hay
  || match hay with
     | EmptyString => false
     | String _ hay' => contains needle hay'
     end.

End Str.

(* ===================================================================== *)
(** ** Regular expressions *)
(* ===================================================================== *)

Module Re.

(** One item of a pattern: a character class with a greedy quantifier
    [{lo,hi}]; [hi = None] is "no upper bound". *)
Record atom := Atom {
  cls : ascii -> bool;
  lo : nat;
  hi : option nat
}.

Definition pattern := list atom.

Definition one (p : ascii -> bool) : atom := Atom p 1 (Some 1).
Definition lit (c : ascii) : atom := one (Str.is_char c).
Definition opt (p : ascii -> bool) : atom := Atom p 0 (Some 1).
Definition star (p : ascii -> bool) : atom := Atom p 0 None.
Definition plus (p : ascii -> bool) : atom := Atom p 1 None.
Definition at_least (n : nat) (p : ascii -> bool) : atom := Atom p n None.

Definition room (hi : option nat) : bool :=
  match hi with
  | Some 0 => false
  | _ => true
  end.

Definition less (hi : option nat) : option nat :=
  match hi with
  | Some n => Some (pred n)
  | None => None
  end.

(** A greedy repetition followed by the rest of the pattern [k]: take one
    more character while the class and the upper bound allow it, and fall
    back to stopping here when the rest fails further on.  The result is
    the matched text. *)
Fixpoint greedy (cl : ascii -> bool) (k : string -> option string)
         (lo : nat) (hi : option nat) (s : string) : option string :=
  let stop := if lo =? 0 then k s else None in
  match s with
  | String c s' =>
      if cl c && room hi then
        match greedy cl k (pred lo) (less hi) s' with
        | Some m => Some (String c m)
        | None => stop
        end
      else stop
  | EmptyString => stop
  end.

(** The pattern matched at the start of [s]: [Some m] with [m] the
    matched prefix. *)
Fixpoint match_here (p : pattern) (s : string) : option string :=
  match p with
  | [] => Some EmptyString
  | a :: p' => greedy (cls a) (match_here p') (lo a) (hi a) s
  end.

(** [re.match(p, s)] as a truth value. *)
Definition matches (p : pattern) (s : string) : bool :=
  match match_here p s with
  | Some _ => true
  | None => false
  end.

(** [re.search(p, s)] as a truth value: a match at some position. *)
Fixpoint search (p : pattern) (s : string) : bool :=
  match match_here p s with
  | Some _ => true
  | None =>
      match s with
      | EmptyString => false
      | String _ s' => search p s'
      end
  end.

(** [re.findall(p, s)] for a pattern without groups: the texts of the
    non-overlapping matches, leftmost first.  [skip] counts the
    characters still covered by the previous match; after an empty match
    the scan moves on by one character. *)
Fixpoint findall_from (p : pattern) (skip : nat) (s : string) : list string :=
  match skip with
  | S n =>
      match s with
      | EmptyString => []
      | String _ s' => findall_from p n s'
      end
  | O =>
      match match_here p s with
      | Some m =>
          m :: match s with
               | EmptyString => []
               | String _ s' => findall_from p (pred (String.length m)) s'
               end
      | None =>
          match s with
          | EmptyString => []
          | String _ s' => findall_from p 0 s'
          end
      end
  end.

Definition findall (p : pattern) (s : string) : list string :=
  findall_from p 0 s.

(** *** Character classes of the script's patterns *)

Definition alpha (c : ascii) : bool :=
  Str.between 97 122 c || Str.between 65 90 c.

Definition digit (c : ascii) : bool := Str.between 48 57 c.

(** [\s] on a [str] pattern: the Unicode white space below 256. *)
Definition space (c : ascii) : bool :=
  Str.between 9 13 c || Str.between 28 32 c
  || (Str.code c =? 133) || (Str.code c =? 160).

(** [.] without DOTALL: anything but a line feed. *)
Definition dot (c : ascii) : bool := negb (Str.code c =? 10).

(** [[a-zA-Z0-9._%+-]] *)
Definition local_part (c : ascii) : bool :=
  alpha c || digit c || Str.one_of "._%+-" c.

(** [[a-zA-Z0-9.-]] *)
Definition domain_part (c : ascii) : bool :=
  alpha c || digit c || Str.one_of ".-" c.

(** [[^\s/$.?#]] *)
Definition host_start (c : ascii) : bool :=
  negb (space c || Str.one_of "/$.?#" c).

(** [[^\s]] *)
Definition non_space (c : ascii) : bool := negb (space c).

End Re.

(** Line 21: [[a-zA-Z0-9._%+-]+@[a-zA-Z0-9.-]+\.[a-zA-Z]{2,}] *)
Definition EMAIL_REGEX : Re.pattern :=
  [ Re.plus Re.local_part; Re.lit "@"; Re.plus Re.domain_part;
    Re.lit "."; Re.at_least 2 Re.alpha ].

(** Line 84: [https?://[^\s/$.?#].[^\s]*] *)
Definition url_regex : Re.pattern :=
  [ Re.lit "h"; Re.lit "t"; Re.lit "t"; Re.lit "p"; Re.opt (Str.is_char "s");
    Re.lit ":"; Re.lit "/"; Re.lit "/";
    Re.one Re.host_start; Re.one Re.dot; Re.star Re.non_space ].

(** Lines 82-87. *)
Definition is_url (url : string) : bool :=
  match url with
  | String _ _ => Re.matches url_regex url
  | EmptyString => false
  end.

(** Lines 111-113: a record of the church directory. *)
Record kerk := Kerk { website : string }.

(** Line 130: the seeds are the websites of the directory that pass
    [is_url]. *)
Definition kerk_urls (pkn_kerken : list kerk) : list string :=
  map website (filter (fun k => is_url (website k)) pkn_kerken).

(** Lines 114-129. *)
Definition contact_page_keywords : list string :=
  [ "contact"; "about"; "over ons"; "anbi"; "gegevens"; "info"; "wie";
    "geven"; "give"; "gift"; "donatie"; "doneren"; "doneer"; "mail" ].

(* ===================================================================== *)
(** ** cachetools.TTLCache *)
(* ===================================================================== *)

(** The cache of line 18 as [cachetools] keeps it: entries in order of
    use (least recently used first), each with the time at which it
    expires.  Every entry costs one unit of [maxsize].  The clock is
    [time.monotonic], counted in whole seconds. *)
Module TTLCache.

Section Cache.

Variables K V : Type.
Variable eqb : K -> K -> bool.

Record entry := Entry {
  key : K;
  value : V;
  expires : N
}.

Record t := Make {
  maxsize : nat;
  ttl : N;
  entries : list entry
}.

Definition with_entries (c : t) (es : list entry) : t :=
  Make (maxsize c) (ttl c) es.

Definition has_key (k : K) (e : entry) : bool := eqb k (key e).

Definition live (time : N) (e : entry) : bool := (time <? expires e)%N.

(** [expire(time)]: the entries whose time has come are removed.  (The
    library walks its list in order of expiry and stops at the first live
    entry; with one [ttl] for all and a clock that never goes back this
    removes exactly the entries that are not live.) *)
Definition expire (time : N) (c : t) : t :=
  with_entries c (filter (live time) (entries c)).

Definition without (k : K) (es : list entry) : list entry :=
  filter (fun e => negb (has_key k e)) es.

(** [cache[k]]: [None] stands for [KeyError].  The lookup marks the key as
    most recently used, also when the entry found has expired. *)
Definition getitem (k : K) (time : N) (c : t) : option V * t :=
  match find (has_key k) (entries c) with
  | Some e =>
      let c' := with_entries c (without k (entries c) ++ [e]) in
      if live time e then (Some (value e), c') else (None, c')
  | None => (None, c)
  end.

(** [popitem()] as often as needed to make room for one new entry: the
    least recently used entries go first. *)
Definition make_room (c : t) : t :=
  with_entries c (skipn (S (length (entries c)) - maxsize c) (entries c)).

(** [cache[k] = v].  A cache of size 0 takes nothing ([ValueError], which
    the [cached] wrapper ignores). *)
Definition setitem (k : K) (v : V) (time : N) (c : t) : t :=
  let c1 := expire time c in
  if maxsize c1 =? 0 then c1
  else
    let c2 :=
      if existsb (has_key k) (entries c1)
      then with_entries c1 (without k (entries c1))
      else make_room c1 in
    with_entries c2 (entries c2 ++ [Entry k v (time + ttl c2)%N]).

Definition keys (c : t) : list K := map key (entries c).

End Cache.

End TTLCache.

(* ===================================================================== *)
(** ** Exceptions, the network, the shared state *)
(* ===================================================================== *)

(** The exceptions that can travel through the script.  The text carried
    by each is what [str(e)] gives. *)
Inductive PyExc :=
| RuntimeError (msg : string)
| ClientResponseError (status : nat) (msg : string)
| ClientError (msg : string)
| OtherError (msg : string).

Definition str (e : PyExc) : string :=
  match e with
  | RuntimeError msg => msg
  | ClientResponseError _ msg => msg
  | ClientError msg => msg
  | OtherError msg => msg
  end.

(** What one GET request comes to: a response with its status line and
    body, or an exception raised by the transport (connection refused,
    time-out, invalid URL, undecodable body, ...). *)
Inductive NetOutcome :=
| HttpResponse (status : nat) (reason : string) (body : string)
| TransportError (msg : string).

(** The state of a coroutine object, as [inspect.getcoroutinestate] names
    it. *)
Inductive CoroState := CORO_CREATED | CORO_SUSPENDED | CORO_CLOSED.

(** A coroutine object made by calling the undecorated [fetch]: its
    arguments and how far it has run. *)
Record coroutine := Coroutine {
  co_session : nat;
  co_url : string;
  co_state : CoroState
}.

Inductive LogRecord :=
| ErrorFetching (url : string) (e : PyExc)
| ErrorExtracting (url : string) (e : PyExc)
| FoundURLs (main_url : string) (contact_urls : list string).

(** A cache key is [hashkey(session, url)]; a session object is known by
    its number. *)
Definition CacheKey : Type := nat * string.

Definition hashkey (session : nat) (url : string) : CacheKey := (session, url).

Definition key_eqb (a b : CacheKey) : bool :=
  (fst a =? fst b) && String.eqb (snd a) (snd b).

(** Everything the coroutines of one run share. *)
Record World := MkWorld {
  now : N;
  cache : TTLCache.t CacheKey nat;
  coroutines : list coroutine;
  sessions : nat;
  requests : list string;
  log : list LogRecord
}.

(** Line 18. *)
Definition new_cache : TTLCache.t CacheKey nat := TTLCache.Make 1000 300 [].

Definition initial_world : World := MkWorld 0 new_cache [] 0 [] [].

Definition set_now (t : N) (w : World) : World :=
  MkWorld t (cache w) (coroutines w) (sessions w) (requests w) (log w).

Definition set_cache (c : TTLCache.t CacheKey nat) (w : World) : World :=
  MkWorld (now w) c (coroutines w) (sessions w) (requests w) (log w).

Definition set_coroutines (cs : list coroutine) (w : World) : World :=
  MkWorld (now w) (cache w) cs (sessions w) (requests w) (log w).

Definition set_sessions (n : nat) (w : World) : World :=
  MkWorld (now w) (cache w) (coroutines w) n (requests w) (log w).

Definition set_requests (rs : list string) (w : World) : World :=
  MkWorld (now w) (cache w) (coroutines w) (sessions w) rs (log w).

Definition set_log (l : list LogRecord) (w : World) : World :=
  MkWorld (now w) (cache w) (coroutines w) (sessions w) (requests w) l.

(* ===================================================================== *)
(** ** Coroutines *)
(* ===================================================================== *)

(** A coroutine that has still to produce an [A]: it returns, raises,
    reads or writes the shared state, or waits for a GET request to come
    back.  Only [Await] gives the event loop a chance to run something
    else. *)
Inductive Coro (A : Type) : Type :=
| Ret (a : A)
| Throw (e : PyExc)
| GetW (k : World -> Coro A)
| PutW (w : World) (k : Coro A)
| Await (url : string) (k : NetOutcome -> Coro A).

Arguments Ret {A} a.
Arguments Throw {A} e.
Arguments GetW {A} k.
Arguments PutW {A} w k.
Arguments Await {A} url k.

Fixpoint Coro_bind {A B : Type} (c : Coro A) (f : A -> Coro B) : Coro B :=
  match c with
  | Ret a => f a
  | Throw e => Throw e
  | GetW k => GetW (fun w => Coro_bind (k w) f)
  | PutW w k => PutW w (Coro_bind k f)
  | Await url k => Await url (fun o => Coro_bind (k o) f)
  end.

(** [try: c  except Exception as e: h e] *)
Fixpoint try_except {A : Type} (c : Coro A) (h : PyExc -> Coro A) : Coro A :=
  match c with
  | Ret a => Ret a
  | Throw e => h e
  | GetW k => GetW (fun w => try_except (k w) h)
  | PutW w k => PutW w (try_except k h)
  | Await url k => Await url (fun o => try_except (k o) h)
  end.

#[global] Instance Monad_Coro : Monad Coro :=
  {| ret := @Ret; bind := @Coro_bind |}.

#[global] Instance MonadExc_Coro : MonadExc PyExc Coro :=
  {| raise := @Throw; catch := @try_except |}.

Definition get_world : Coro World := GetW (fun w => Ret w).

Definition modify_world (f : World -> World) : Coro unit :=
  GetW (fun w => PutW (f w) (Ret tt)).

(** A list comprehension whose element expression awaits: the elements
    are produced one after the other, in the order of the list. *)
Fixpoint for_each {A B : Type} (f : A -> Coro B) (l : list A) : Coro (list B) :=
  match l with
  | [] => ret []
  | x :: l' =>
      y <- f x ;;
      ys <- for_each f l' ;;
      ret (y :: ys)
  end.

(* ===================================================================== *)
(** ** The functions of the script *)
(* ===================================================================== *)

Definition logging (r : LogRecord) : Coro unit :=
  modify_world (fun w => set_log (log w ++ [r]) w).

(** The response object of aiohttp, as far as the script looks at it. *)
Record ClientResponse := MkResponse {
  status : nat;
  reason : string;
  body : string
}.

(** [session.get(url)]: the request goes out and the coroutine waits for
    what comes back. *)
Definition session_get (session : nat) (url : string) : Coro ClientResponse :=
  modify_world (fun w => set_requests (requests w ++ [url]) w) ;;
  Await url (fun o =>
    match o with
    | HttpResponse st rs b => ret (MkResponse st rs b)
    | TransportError msg => raise (ClientError msg)
    end).

(** [response.raise_for_status()] of aiohttp: an error for status 400 and
    above, and only for those. *)
Definition raise_for_status (response : ClientResponse) : Coro unit :=
  if 400 <=? status response
  then raise (ClientResponseError (status response) (reason response))
  else ret tt.

Definition response_text (response : ClientResponse) : Coro string :=
  ret (body response).

(** Lines 25-32: the body of [fetch], without its decorator. *)
Definition fetch_body (session : nat) (url : string) : Coro string :=
  catch
    (response <- session_get session url ;;
     raise_for_status response ;;
     response_text response)
    (fun e =>
       logging (ErrorFetching url e) ;;
       ret "").

(** Calling the undecorated [fetch] runs nothing: it makes a coroutine
    object, known from then on by its place in [coroutines]. *)
Definition new_coroutine (session : nat) (url : string) : Coro nat :=
  w <- get_world ;;
  PutW (set_coroutines (coroutines w ++ [Coroutine session url CORO_CREATED]) w)
       (ret (length (coroutines w))).

(** Line 24: [fetch] as [cachetools.cached] wraps it.  A plain function:
    look the key up; on a miss call the wrapped function and keep what it
    returned, which is the coroutine object. *)
Definition fetch (session : nat) (url : string) : Coro nat :=
  w <- get_world ;;
  let k := hashkey session url in
  let (hit, cache') := TTLCache.getitem key_eqb k (now w) (cache w) in
  PutW (set_cache cache' w)
    match hit with
    | Some v => ret v
    | None =>
        v <- new_coroutine session url ;;
        modify_world (fun w =>
          set_cache (TTLCache.setitem key_eqb k v (now w) (cache w)) w) ;;
        ret v
    end.

Fixpoint set_state (i : nat) (s : CoroState) (cs : list coroutine)
  : list coroutine :=
  match cs, i with
  | [], _ => []
  | c :: cs', O => Coroutine (co_session c) (co_url c) s :: cs'
  | c :: cs', S i' => c :: set_state i' s cs'
  end.

Definition coroutine_state (i : nat) (s : CoroState) : Coro unit :=
  modify_world (fun w => set_coroutines (set_state i s (coroutines w)) w).

(** [await c] for a coroutine object of [fetch]: a new one runs its body
    to the end; one that is waiting inside another [await], or that has
    run already, cannot be awaited again. *)
Definition await (c : nat) : Coro string :=
  w <- get_world ;;
  match nth_error (coroutines w) c with
  | Some (Coroutine session url CORO_CREATED) =>
      coroutine_state c CORO_SUSPENDED ;;
      text <- catch (fetch_body session url)
                    (fun e => coroutine_state c CORO_CLOSED ;; raise e) ;;
      coroutine_state c CORO_CLOSED ;;
      ret text
  | Some (Coroutine _ _ CORO_SUSPENDED) =>
      raise (RuntimeError "coroutine is being awaited already")
  | Some (Coroutine _ _ CORO_CLOSED) | None =>
      raise (RuntimeError "cannot reuse already awaited coroutine")
  end.

Section Script.

(** [BeautifulSoup(html, "lxml").find_all("a", href=True)], read off as
    the [href] values of the anchors in document order; the parser may
    also raise. *)
Variable find_all_a_href : string -> PyExc + list string.

Definition BeautifulSoup (html : string) : Coro (list string) :=
  match find_all_a_href html with
  | inr hrefs => ret hrefs
  | inl e => raise e
  end.

(** Line 44: [any(keyword in link["href"].lower() for keyword in ...)] *)
Definition any_keyword_in (contact_page_keywords : list string) (href : string)
  : bool :=
  existsb (fun keyword => Str.contains keyword (Str.lower href))
          contact_page_keywords.

(** Lines 35-50. *)
Definition get_contact_page_urls (session : nat) (main_url : string)
           (contact_page_keywords : list string) : Coro (list string) :=
  catch
    (c <- fetch session main_url ;;
     html_content <- await c ;;
     soup <- BeautifulSoup html_content ;;
     let contact_urls := filter (any_keyword_in contact_page_keywords) soup in
     logging (FoundURLs main_url contact_urls) ;;
     ret contact_urls)
    (fun e =>
       logging (ErrorFetching main_url e) ;;
       ret [str e]).

(** Lines 53-62. *)
Definition extract_emails_from_page (session : nat) (url : string)
           (email_regex : Re.pattern) : Coro (list string) :=
  catch
    (c <- fetch session url ;;
     html_content <- await c ;;
     ret (Re.findall email_regex html_content))
    (fun e =>
       logging (ErrorExtracting url e) ;;
       ret [str e]).

(** Lines 65-79. *)
Definition process_kerk_url (session : nat) (kerk_url : string)
           (contact_page_keywords : list string) (email_regex : Re.pattern)
  : Coro (string * list (list string)) :=
  contact_pages <-
    get_contact_page_urls session kerk_url contact_page_keywords ;;
  emails <-
    for_each (fun page => extract_emails_from_page session page email_regex)
             contact_pages ;;
  ret (kerk_url, emails).

End Script.

(* ===================================================================== *)
(** ** Running one coroutine *)
(* ===================================================================== *)

(** What happens while a coroutine waits: its request comes to [arrives],
    and the other tasks have changed the shared state by [meanwhile]. *)
Record Turn := MkTurn {
  arrives : NetOutcome;
  meanwhile : World -> World
}.

(** The coroutine [c] run to its end from the state [w]; its [n]-th wait
    goes as [env n] says.  The result is the number of the next wait, the
    final state, and the value returned or the exception raised. *)
Fixpoint run {A : Type} (c : Coro A) (env : nat -> Turn) (n : nat) (w : World)
  : nat * World * (PyExc + A) :=
  match c with
  | Ret a => (n, w, inr a)
  | Throw e => (n, w, inl e)
  | GetW k => run (k w) env n w
  | PutW w' k => run k env n w'
  | Await _ k => run (k (arrives (env n))) env (S n) (meanwhile (env n) w)
  end.

Definition result_of {A : Type} (x : nat * World * (PyExc + A)) : PyExc + A :=
  snd x.

Definition world_of {A : Type} (x : nat * World * (PyExc + A)) : World :=
  snd (fst x).

Definition next_of {A : Type} (x : nat * World * (PyExc + A)) : nat :=
  fst (fst x).

(** Nobody else touches the shared state and no time passes. *)
Definition alone (o : NetOutcome) : Turn := MkTurn o (fun w => w).

(** Nobody else touches the shared state, and [dt] seconds pass. *)
Definition later (dt : N) (o : NetOutcome) : Turn :=
  MkTurn o (fun w => set_now (now w + dt)%N w).

(* ===================================================================== *)
(** ** asyncio.as_completed and main *)
(* ===================================================================== *)

(** A task of the event loop: created and not yet started, waiting for a
    request, or finished. *)
Inductive Task (R : Type) : Type :=
| Pending (c : Coro R)
| Waiting (url : string) (k : NetOutcome -> Coro R)
| Finished (r : PyExc + R).

Arguments Pending {R} c.
Arguments Waiting {R} url k.
Arguments Finished {R} r.

(** A coroutine run up to its next wait. *)
Fixpoint settle {R : Type} (c : Coro R) (w : World) : World * Task R :=
  match c with
  | Ret a => (w, Finished (inr a))
  | Throw e => (w, Finished (inl e))
  | GetW k => settle (k w) w
  | PutW w' k => settle k w'
  | Await url k => (w, Waiting url k)
  end.

Definition is_pending {R : Type} (t : Task R) : bool :=
  match t with Pending _ => true | _ => false end.

Definition is_waiting {R : Type} (t : Task R) : bool :=
  match t with Waiting _ _ => true | _ => false end.

Definition is_finished {R : Type} (t : Task R) : bool :=
  match t with Finished _ => true | _ => false end.

(** The places of the tasks that satisfy [p], counted from [i]. *)
Fixpoint positions {R : Type} (p : Task R -> bool) (i : nat) (ts : list (Task R))
  : list nat :=
  match ts with
  | [] => []
  | t :: ts' => if p t then i :: positions p (S i) ts' else positions p (S i) ts'
  end.

Fixpoint replace_nth {X : Type} (i : nat) (x : X) (l : list X) : list X :=
  match l, i with
  | [], _ => []
  | _ :: l', O => x :: l'
  | y :: l', S i' => y :: replace_nth i' x l'
  end.

(** The dictionary [kerk_emails]: the keys in order of first insertion. *)
Definition Dict : Type := list (string * list (list string)).

Fixpoint dict_set (k : string) (v : list (list string)) (d : Dict) : Dict :=
  match d with
  | [] => [(k, v)]
  | (k', v') :: d' =>
      if String.eqb k k' then (k, v) :: d' else (k', v') :: dict_set k v d'
  end.

Definition dict_keys (d : Dict) : list string := map fst d.

(** One choice of the environment: which task goes next (counted among
    those that can), how its request ends, and how much time has passed. *)
Record Event := MkEvent {
  pick : nat;
  outcome : NetOutcome;
  elapsed : N
}.

Definition Result : Type := string * list (list string).

(** The state of [main] inside its loop: the shared state, the tasks, and
    [kerk_emails] so far, or the exception that ended the loop. *)
Record Loop := MkLoop {
  world : World;
  tasks : list (Task Result);
  kerk_emails : PyExc + Dict
}.

(** Lines 101-102, when a task has come to its end. *)
Definition completed (t : Task Result) (acc : PyExc + Dict) : PyExc + Dict :=
  match acc, t with
  | inr d, Finished (inr (kerk_url, emails)) => inr (dict_set kerk_url emails d)
  | inr d, Finished (inl e) => inl e
  | _, _ => acc
  end.

Definition chosen (n : nat) (candidates : list nat) : nat :=
  nth (n mod length candidates) candidates 0.

(** One step of the event loop.  Tasks that have not started yet go first,
    in an order the environment chooses; after that the environment
    chooses which waiting task gets its answer. *)
Definition step (ev : Event) (st : Loop) : Loop :=
  let w := set_now (now (world st) + elapsed ev)%N (world st) in
  match positions is_pending 0 (tasks st) with
  | (_ :: _) as ready =>
      let i := chosen (pick ev) ready in
      match nth_error (tasks st) i with
      | Some (Pending c) =>
          let (w', t) := settle c w in
          MkLoop w' (replace_nth i t (tasks st)) (completed t (kerk_emails st))
      | _ => st
      end
  | [] =>
      match positions is_waiting 0 (tasks st) with
      | (_ :: _) as waiting =>
          let i := chosen (pick ev) waiting in
          match nth_error (tasks st) i with
          | Some (Waiting _ k) =>
              let (w', t) := settle (k (outcome ev)) w in
              MkLoop w' (replace_nth i t (tasks st))
                     (completed t (kerk_emails st))
          | _ => st
          end
      | [] => st
      end
  end.

Definition loop_over (st : Loop) : bool :=
  match kerk_emails st with
  | inl _ => true
  | inr _ => forallb is_finished (tasks st)
  end.

(** Line 100: the loop over [asyncio.as_completed(tasks)].  [fuel] bounds
    the number of steps taken; [None] means the bound was too small. *)
Fixpoint as_completed (fuel : nat) (env : nat -> Event) (n : nat) (st : Loop)
  : option Loop :=
  if loop_over st then Some st
  else
    match fuel with
    | O => None
    | S fuel' => as_completed fuel' env (S n) (step (env n) st)
    end.

Section Main.

Variable find_all_a_href : string -> PyExc + list string.

(** Lines 90-106. *)
Definition main (kerk_urls : list string) (contact_page_keywords : list string)
           (email_regex : Re.pattern) (env : nat -> Event) (fuel : nat)
           (w : World) : option (World * (PyExc + Dict)) :=
  let session := sessions w in
  let tasks :=
    map (fun kerk_url =>
           Pending (process_kerk_url find_all_a_href session kerk_url
                                     contact_page_keywords email_regex))
        kerk_urls in
  match as_completed fuel env 0 (MkLoop (set_sessions (S session) w) tasks (inr []))
  with
  | Some st => Some (world st, kerk_emails st)
  | None => None
  end.

End Main.

(* ===================================================================== *)
(** ** The table (lines 138-149) *)
(* ===================================================================== *)

(** What a cell of the column [email] can hold. *)
Inductive Cell :=
| NaN
| PyNone
| Text (s : string)
| Items (l : list string).

Definition Cell_eqb (a b : Cell) : bool :=
  match a, b with
  | NaN, NaN => true
  | PyNone, PyNone => true
  | Text s, Text s' => String.eqb s s'
  | Items l, Items l' =>
      if list_eq_dec string_dec l l' then true else false
  | _, _ => false
  end.

(** A row of the data frame: its index label and the two columns. *)
Record Row := MkRow {
  index : nat;
  url : string;
  email : Cell
}.

(** [bool(values)] of a list. *)
Definition truthy {X : Type} (values : list X) : bool :=
  match values with
  | [] => false
  | _ :: _ => true
  end.

(** Lines 139-143. *)
Definition rows (kerk_emails : Dict) : list (string * Cell) :=
  flat_map
    (fun kv =>
       let key := fst kv in
       let values := snd kv in
       map (fun value =>
              if truthy values then (key, Items value) else (key, PyNone))
           values)
    kerk_emails.

(** [pd.DataFrame(rows, columns=["url", "email"])]: the rows are labelled
    0, 1, 2, ... *)
Fixpoint DataFrame_from (i : nat) (rows : list (string * Cell)) : list Row :=
  match rows with
  | [] => []
  | (u, e) :: rows' => MkRow i u e :: DataFrame_from (S i) rows'
  end.

Definition DataFrame (rows : list (string * Cell)) : list Row :=
  DataFrame_from 0 rows.

(** [.explode("email")]: a list becomes one row for each of its items
    under the same label, an empty list one row with NaN, and anything
    else stays. *)
Definition explode_row (r : Row) : list Row :=
  match email r with
  | Items [] => [MkRow (index r) (url r) NaN]
  | Items l => map (fun s => MkRow (index r) (url r) (Text s)) l
  | _ => [r]
  end.

Definition explode (df : list Row) : list Row := flat_map explode_row df.

(** [.str.contains(pat, na=False)] on one cell: [re.search] on a string,
    false on anything else. *)
Definition str_contains (pat : Re.pattern) (c : Cell) : bool :=
  match c with
  | Text s => Re.search pat s
  | _ => false
  end.

(** [.drop_duplicates(subset=["email"])]: a row stays when no row before
    it has the same [email]. *)
Fixpoint drop_duplicates_seen (seen : list Cell) (df : list Row) : list Row :=
  match df with
  | [] => []
  | r :: df' =>
      if existsb (Cell_eqb (email r)) seen
      then drop_duplicates_seen seen df'
      else r :: drop_duplicates_seen (email r :: seen) df'
  end.

Definition drop_duplicates (df : list Row) : list Row :=
  drop_duplicates_seen [] df.

(** Line 146. *)
Definition df_exploded (kerk_emails : Dict) : list Row :=
  explode (DataFrame (rows kerk_emails)).

(** Line 147. *)
Definition df_validated (kerk_emails : Dict) : list Row :=
  filter (fun r => str_contains EMAIL_REGEX (email r)) (df_exploded kerk_emails).

(** Line 148: the table that is written to the spreadsheet. *)
Definition df (kerk_emails : Dict) : list Row :=
  drop_duplicates (df_validated kerk_emails).

(* ===================================================================== *)
(** ** A small parser and a small web for the examples *)
(* ===================================================================== *)

Module Demo.

(** The text up to the next double quote. *)
Fixpoint until_quote (s : string) : string :=
  match s with
  | EmptyString => EmptyString
  | String c s' =>
      if Ascii.eqb c (ascii_of_nat 34) then EmptyString
      else String c (until_quote s')
  end.

Definition anchor_open : string :=
  ("<a href=" ++ String (ascii_of_nat 34) EmptyString)%string.

(** What follows the prefix [p] in [s], when [s] starts with it. *)
Fixpoint after_prefix (p s : string) : option string :=
  match p, s with
  | EmptyString, _ => Some s
  | String a p', String b s' =>
      if Ascii.eqb a b then after_prefix p' s' else None
  | String _ _, EmptyString => None
  end.

(** The values of the [href] attributes of the anchors written as
    [<a href="...">], in the order of the text. *)
Fixpoint hrefs (s : string) : list string :=
  match s with
  | EmptyString => []
  | String _ s' =>
      match after_prefix anchor_open s with
      | Some rest => until_quote rest :: hrefs s'
      | None => hrefs s'
      end
  end.

Definition find_all_a_href (html : string) : PyExc + list string :=
  inr (hrefs html).

Definition anchor (href text : string) : string :=
  (anchor_open ++ href ++ String (ascii_of_nat 34) EmptyString
   ++ ">" ++ text ++ "</a>")%string.

(** A home page with one link to a contact page, and that contact page. *)
Definition home : string := anchor "/contact-us" "Contact".

Definition contact_us : string := "Reach us at info@example.org.".

(** A home page whose only link is spelled in lower case. *)
Definition plain_home : string := anchor "/contact" "Contact".

(** The web as one seed sees it: the first event starts the task, the
    next brings the home page, every later one a contact page. *)
Definition web (n : nat) : Event :=
  match n with
  | 0 => MkEvent 0 (TransportError "") 0
  | 1 => MkEvent 0 (HttpResponse 200 "OK" home) 1
  | _ => MkEvent 0 (HttpResponse 200 "OK" contact_us) 1
  end.

(** The same web when the seed is given twice: both tasks start, the
    first gets the home page and then the contact page, and the request
    of the second ends in an error. *)
Definition web_twice (n : nat) : Event :=
  match n with
  | 0 | 1 => MkEvent 0 (TransportError "") 0
  | 2 => MkEvent 0 (HttpResponse 200 "OK" home) 1
  | 3 => MkEvent 0 (HttpResponse 200 "OK" contact_us) 1
  | _ => MkEvent 0 (TransportError "invalid URL") 1
  end.

End Demo.

(* ===================================================================== *)
(** ** Notions used in the statements *)
(* ===================================================================== *)

(** [Always P c]: however the shared state looks and whatever the network
    answers, the coroutine [c] ends with a result that satisfies [P]. *)
Inductive Always {A : Type} (P : PyExc + A -> Prop) : Coro A -> Prop :=
| Always_Ret a : P (inr a) -> Always P (Ret a)
| Always_Throw e : P (inl e) -> Always P (Throw e)
| Always_GetW k : (forall w, Always P (k w)) -> Always P (GetW k)
| Always_PutW w k : Always P k -> Always P (PutW w k)
| Always_Await url k : (forall o, Always P (k o)) -> Always P (Await url k).

(** The items of [xs] are worked off one after the other: [ys] holds the
    results in the same places, and each run starts where the one before
    it ended. *)
Fixpoint one_by_one {A B : Type} (f : A -> Coro B) (env : nat -> Turn)
         (n : nat) (w : World) (xs : list A) (ys : list B) : Prop :=
  match xs, ys with
  | [], [] => True
  | x :: xs', y :: ys' =>
      result_of (run (f x) env n w) = inr y
      /\ one_by_one f env (next_of (run (f x) env n w))
                    (world_of (run (f x) env n w)) xs' ys'
  | _, _ => False
  end.

(** [await fetch(session, url)] *)
Definition await_fetch (session : nat) (url : string) : Coro string :=
  c <- fetch session url ;;
  await c.

(** A task steps to what it becomes when the event loop lets it run. *)
Inductive task_step {R : Type} : Task R -> Task R -> Prop :=
| step_start c w : task_step (Pending c) (snd (settle c w))
| step_resume url k o w : task_step (Waiting url k) (snd (settle (k o) w)).

(** One task of a list steps, the others stay. *)
Inductive tasks_step {R : Type} : list (Task R) -> list (Task R) -> Prop :=
| step_here t t' ts : task_step t t' -> tasks_step (t :: ts) (t' :: ts)
| step_there t ts ts' : tasks_step ts ts' -> tasks_step (t :: ts) (t :: ts').

(** Three properties of a matcher [k] for the rest of a pattern: what it
    matches is a prefix of its input; a match on a text is not lost when
    the text goes on; and what it matched, it matches as a whole. *)
Definition prefix_ok (k : string -> option string) : Prop :=
  forall s m, k s = Some m -> exists rest, s = (m ++ rest)%string.

Definition extends_ok (k : string -> option string) : Prop :=
  forall m x rest, k m = Some x -> k (m ++ rest)%string <> None.

Definition self_ok (k : string -> option string) : Prop :=
  forall s m, k s = Some m -> k m = Some m.

(** The pattern matches the string [s] as a whole. *)
Definition whole_match (p : Re.pattern) (s : string) : Prop :=
  Re.match_here p s = Some s.

(** The two texts with which awaiting a coroutine object again fails. *)
Definition await_error (s : string) : Prop :=
  s = "coroutine is being awaited already"
  \/ s = "cannot reuse already awaited coroutine".

(** What a string among the results of a seed can be: a match of the
    pattern, or the text of such an error. *)
Definition found_or_error (p : Re.pattern) (s : string) : Prop :=
  whole_match p s \/ await_error s.

(** What the task made for the seed [u] may end with: it returns [u] with
    lists of such strings. *)
Definition returns_seed (email_regex : Re.pattern) (u : string)
           (r : PyExc + Result) : Prop :=
  exists emails,
    r = inr (u, emails) /\ Forall (Forall (found_or_error email_regex)) emails.

(** [task_always P t]: however the task [t] goes on, its result satisfies
    [P]. *)
Definition task_always (P : PyExc + Result -> Prop) (t : Task Result) : Prop :=
  match t with
  | Pending c => Always P c
  | Waiting _ k => forall o, Always P (k o)
  | Finished r => P r
  end.

Definition task_for (email_regex : Re.pattern) (u : string) (t : Task Result)
  : Prop :=
  task_always (returns_seed email_regex u) t.

(** The spec's reading of the link filter: the keyword too is compared
    without regard to case. *)
Definition any_keyword_in_ignoring_case (contact_page_keywords : list string)
           (href : string) : bool :=
  existsb (fun keyword => Str.contains (Str.lower keyword) (Str.lower href))
          contact_page_keywords.

(** What the body of [fetch] makes of the outcome of its request. *)
Definition text_of (o : NetOutcome) : string :=
  match o with
  | HttpResponse st _ b => if 400 <=? st then "" else b
  | TransportError _ => ""
  end.

(** Two calls of [fetch] for the same URL, one after the other, as a
    coroutine of its own. *)
Definition fetch_twice (session : nat) (url : string) : Coro (string * string) :=
  first <- await_fetch session url ;;
  second <- await_fetch session url ;;
  ret (first, second).

(** The result is a value, not an exception. *)
Definition returns {A : Type} (r : PyExc + A) : Prop := exists a, r = inr a.

(** Awaiting a coroutine object of [fetch] gives a text, or fails with one
    of the two texts of [await_error]. *)
Definition text_or_await_error (r : PyExc + string) : Prop :=
  returns r \/ exists m, r = inl (RuntimeError m) /\ await_error m.

(** The result is a list whose items all satisfy [Q]. *)
Definition returns_all {A : Type} (Q : A -> Prop) (r : PyExc + list A) : Prop :=
  exists l, r = inr l /\ Forall Q l.

(** The values of the dictionary hold only matches and error texts. *)
Definition dict_values_ok (email_regex : Re.pattern) (d : Dict) : Prop :=
  Forall (fun kv => Forall (Forall (found_or_error email_regex)) (snd kv)) d.

(** The invariant of the loop of [main]: [kerk_emails] is a dictionary
    whose keys are seeds, each once, and every task belongs to its seed
    and has its seed among the keys once it has finished. *)
Definition task_inv (email_regex : Re.pattern) (d : Dict) (u : string)
           (t : Task Result) : Prop :=
  task_for email_regex u t /\ (is_finished t = true -> In u (dict_keys d)).

Definition loop_inv (email_regex : Re.pattern) (seeds : list string) (st : Loop)
  : Prop :=
  exists d,
    kerk_emails st = inr d
    /\ NoDup (dict_keys d)
    /\ incl (dict_keys d) seeds
    /\ dict_values_ok email_regex d
    /\ Forall2 (task_inv email_regex d) seeds (tasks st).

(** No entry of the cache has the key [k]. *)
Definition absent {K V : Type} (eqb : K -> K -> bool) (k : K)
           (es : list (TTLCache.entry K V)) : Prop :=
  forall e, In e es -> TTLCache.has_key eqb k e = false.

(* ===================================================================== *)
(** ** Further notions *)
(* ===================================================================== *)

(** Every character of [s] is in the class [p]. *)
Fixpoint all_chars (p : ascii -> bool) (s : string) : bool :=
  match s with
  | EmptyString => true
  | String c s' => p c && all_chars p s'
  end.

(** The characters that RFC 3986 allows in a URL: letters, digits, the
    other unreserved characters, the reserved ones, and the percent
    sign.  White space, quotes, angle brackets and the like are not among
    them. *)
Definition uri_char (c : ascii) : bool :=
  Re.alpha c || Re.digit c || Str.one_of "-._~:/?#[]@!$&'()*+,;=%" c.

(** The spec's words for a seed, "a syntactically valid absolute
    HTTP/HTTPS URL", as far as this is needed to tell that a text is
    none: the scheme is http or https, "://" follows, the host is not
    empty, and every character of the text is a URL character. *)
Definition valid_http_url (u : string) : Prop :=
  exists scheme c rest,
    (scheme = "http" \/ scheme = "https")
    /\ u = (scheme ++ "://" ++ String c rest)%string
    /\ Str.one_of "/?#" c = false
    /\ all_chars uri_char u = true.

(** The texts that [EMAIL_REGEX] can match: a local part, "@", a domain,
    ".", and two letters or more. *)
Definition email_shape (s : string) : Prop :=
  exists local domain tld,
    s = (local ++ "@" ++ domain ++ "." ++ tld)%string
    /\ all_chars Re.local_part local = true /\ 1 <= String.length local
    /\ all_chars Re.domain_part domain = true /\ 1 <= String.length domain
    /\ all_chars Re.alpha tld = true /\ 2 <= String.length tld.

(** The quantifier's upper bound allows [n] repetitions. *)
Definition within (hi : option nat) (n : nat) : Prop :=
  match hi with
  | Some h => n <= h
  | None => True
  end.

(** Two calls of [fetch], one after the other, with their own sessions
    and URLs. *)
Definition fetch_two (session1 : nat) (url1 : string) (session2 : nat)
           (url2 : string) : Coro (string * string) :=
  first <- await_fetch session1 url1 ;;
  second <- await_fetch session2 url2 ;;
  ret (first, second).

(** What [fetch] writes to the log for the outcome [o] of its request. *)
Definition fetch_log (url : string) (o : NetOutcome) : list LogRecord :=
  match o with
  | HttpResponse st rs _ =>
      if 400 <=? st then [ErrorFetching url (ClientResponseError st rs)] else []
  | TransportError msg => [ErrorFetching url (ClientError msg)]
  end.

(* ===================================================================== *)
(** * Properties *)
(* ===================================================================== *)

#[local] Arguments Nat.leb : simpl nomatch.

(* ===================================================================== *)
(** ** Facts about the matcher *)
(* ===================================================================== *)

Lemma greedy_exhausted cl k s : Re.greedy cl k 0 (Some 0) s = k s.
Proof.
  destruct s; simpl; [reflexivity|]. rewrite andb_false_r. reflexivity.
Qed.

Lemma greedy_one cl k s :
  Re.greedy cl k 1 (Some 1) s =
  match s with
  | String c s' => if cl c then option_map (String c) (k s') else None
  | EmptyString => None
  end.
Proof.
  destruct s as [|c s']; simpl; [reflexivity|].
  rewrite andb_true_r. destruct (cl c); [|reflexivity].
  rewrite greedy_exhausted. destruct (k s'); reflexivity.
Qed.

Lemma greedy_opt cl k s :
  Re.greedy cl k 0 (Some 1) s =
  match s with
  | String c s' =>
      if cl c then match k s' with Some m => Some (String c m) | None => k s end
      else k s
  | EmptyString => k s
  end.
Proof.
  destruct s as [|c s']; simpl; [reflexivity|].
  rewrite andb_true_r. destruct (cl c); [|reflexivity].
  rewrite greedy_exhausted. reflexivity.
Qed.

Lemma matches_one cl p s :
  Re.matches (Re.one cl :: p) s =
  match s with
  | String c s' => cl c && Re.matches p s'
  | EmptyString => false
  end.
Proof.
  unfold Re.matches. simpl. rewrite greedy_one.
  destruct s as [|c s']; [reflexivity|].
  destruct (cl c); [|reflexivity]. simpl.
  destruct (Re.match_here p s'); reflexivity.
Qed.

Lemma matches_opt cl p s :
  Re.matches (Re.opt cl :: p) s =
  match s with
  | String c s' => cl c && Re.matches p s'
  | EmptyString => false
  end || Re.matches p s.
Proof.
  unfold Re.matches. simpl. rewrite greedy_opt.
  destruct s as [|c s']; [reflexivity|].
  destruct (cl c); [|reflexivity]. simpl.
  destruct (Re.match_here p s'); reflexivity.
Qed.

Lemma greedy_star_last cl s :
  Re.greedy cl (fun _ => Some EmptyString) 0 None s <> None.
Proof.
  induction s as [|c s IH]; simpl; [discriminate|].
  destruct (cl c); simpl; [|discriminate].
  destruct (Re.greedy cl _ 0 None s); [discriminate|contradiction].
Qed.

Lemma matches_star_last cl s : Re.matches [Re.star cl] s = true.
Proof.
  unfold Re.matches. simpl.
  pose proof (greedy_star_last cl s) as H.
  destruct (Re.greedy cl _ 0 None s); [reflexivity|contradiction].
Qed.

Lemma greedy_prefix cl k : prefix_ok k -> forall lo hi, prefix_ok (Re.greedy cl k lo hi).
Proof.
  intros Hk lo hi s. revert lo hi.
  induction s as [|c s IH]; intros lo hi m; simpl.
  - destruct (lo =? 0); [apply Hk|discriminate].
  - destruct (cl c && Re.room hi).
    + destruct (Re.greedy cl k (pred lo) (Re.less hi) s) as [m1|] eqn:E.
      * intros H. inversion H; subst. destruct (IH _ _ _ E) as (rest & ->).
        exists rest. reflexivity.
      * destruct (lo =? 0); [apply Hk|discriminate].
    + destruct (lo =? 0); [apply Hk|discriminate].
Qed.

Lemma greedy_extends cl k : extends_ok k -> forall lo hi, extends_ok (Re.greedy cl k lo hi).
Proof.
  intros Hk lo hi m. revert lo hi.
  induction m as [|c m IH]; intros lo hi x rest; simpl.
  - destruct (lo =? 0) eqn:E0; [|discriminate]. intros Hx.
    destruct rest as [|c r]; simpl; rewrite ?E0; [congruence|].
    destruct (cl c && Re.room hi).
    + destruct (Re.greedy cl k (pred lo) (Re.less hi) r); [discriminate|].
      apply (Hk EmptyString x (String c r) Hx).
    + apply (Hk EmptyString x (String c r) Hx).
  - destruct (cl c && Re.room hi).
    + destruct (Re.greedy cl k (pred lo) (Re.less hi) m) as [m1|] eqn:E.
      * intros _. pose proof (IH _ _ m1 rest E) as Hne.
        destruct (Re.greedy cl k (pred lo) (Re.less hi) (m ++ rest)); [discriminate|contradiction].
      * destruct (lo =? 0); [|discriminate]. intros Hx.
        destruct (Re.greedy cl k (pred lo) (Re.less hi) (m ++ rest)); [discriminate|].
        apply (Hk (String c m) x rest Hx).
    + destruct (lo =? 0); [|discriminate]. intros Hx.
      apply (Hk (String c m) x rest Hx).
Qed.

Lemma greedy_self cl k :
  prefix_ok k -> extends_ok k -> self_ok k -> forall lo hi, self_ok (Re.greedy cl k lo hi).
Proof.
  intros Hp He Hs lo hi s. revert lo hi.
  induction s as [|c s IH]; intros lo hi m; simpl.
  - destruct (lo =? 0) eqn:E0; [|discriminate]. intros Hm.
    destruct (Hp _ _ Hm) as (rest & Hrest).
    destruct m; [|discriminate]. simpl. rewrite E0. exact Hm.
  - destruct (cl c && Re.room hi) eqn:Ec.
    + destruct (Re.greedy cl k (pred lo) (Re.less hi) s) as [m1|] eqn:E.
      * intros H. inversion H; subst. simpl. rewrite Ec.
        rewrite (IH _ _ _ E). reflexivity.
      * destruct (lo =? 0) eqn:E0; [|discriminate]. intros Hm.
        destruct (Hp _ _ Hm) as (rest & Hrest).
        destruct m as [|c' m]; simpl.
        { rewrite E0. apply (Hs _ _ Hm). }
        simpl in Hrest. inversion Hrest; subst c' s. rewrite Ec.
        destruct (Re.greedy cl k (pred lo) (Re.less hi) m) as [m2|] eqn:E2.
        { exfalso. apply (@greedy_extends cl k He _ _ m m2 rest E2). exact E. }
        rewrite E0. apply (Hs _ _ Hm).
    + destruct (lo =? 0) eqn:E0; [|discriminate]. intros Hm.
      destruct (Hp _ _ Hm) as (rest & Hrest).
      destruct m as [|c' m]; simpl.
      { rewrite E0. apply (Hs _ _ Hm). }
      simpl in Hrest. inversion Hrest; subst c' s. rewrite Ec, E0. apply (Hs _ _ Hm).
Qed.

Lemma match_here_ok p :
  prefix_ok (Re.match_here p) /\ extends_ok (Re.match_here p) /\ self_ok (Re.match_here p).
Proof.
  induction p as [|a p (Hp & He & Hs)]; simpl.
  - repeat split.
    + intros s m H. inversion H. exists s. reflexivity.
    + intros m x rest _. discriminate.
    + intros s m H. inversion H. reflexivity.
  - repeat split.
    + apply greedy_prefix. exact Hp.
    + apply greedy_extends. exact He.
    + apply greedy_self; assumption.
Qed.

Lemma findall_from_In p m : forall s skip,
  In m (Re.findall_from p skip s) -> exists t, Re.match_here p t = Some m.
Proof.
  induction s as [|c s IH]; intros skip H.
  - destruct skip; simpl in H; [|contradiction].
    destruct (Re.match_here p EmptyString) as [m'|] eqn:E; [|contradiction].
    destruct H as [<-|[]]. eauto.
  - destruct skip; simpl in H; [|eauto].
    destruct (Re.match_here p (String c s)) as [m'|] eqn:E; [|eauto].
    destruct H as [<-|H]; eauto.
Qed.

(** What [findall] returns, the pattern matches as a whole. *)
Lemma findall_whole p s m : In m (Re.findall p s) -> whole_match p m.
Proof.
  intros H. apply findall_from_In in H. destruct H as (t & Ht).
  destruct (match_here_ok p) as (_ & _ & Hs). apply (Hs _ _ Ht).
Qed.

Lemma is_char_eq a c : Str.is_char a c = true -> c = a.
Proof. unfold Str.is_char. intros H. apply Ascii.eqb_eq in H. auto. Qed.

(** One step through a pattern that begins with a single character. *)
Ltac one_step H :=
  rewrite matches_one in H;
  try match type of H with
      | match ?s with _ => _ end = true => destruct s; [discriminate|]
      end;
  apply andb_true_iff in H;
  let E := fresh "E" in
  destruct H as [E H]; try (apply is_char_eq in E; subst).

(** What [is_url] accepts: [http://] or [https://], then a character that
    is neither white space nor one of [/$.?#], then one more character
    that is not a line feed, then anything. *)
Lemma is_url_shape u :
  is_url u = true <->
  exists c1 c2 rest,
    (u = "http://" ++ String c1 (String c2 rest) \/
     u = "https://" ++ String c1 (String c2 rest))%string
    /\ Re.host_start c1 = true /\ Re.dot c2 = true.
Proof.
  split.
  - unfold is_url. destruct u as [|a0 u]; [discriminate|].
    unfold url_regex, Re.lit. intros H.
    do 4 one_step H.
    rewrite matches_opt in H. apply orb_true_iff in H. destruct H as [H|H].
    + destruct u; [discriminate|].
      apply andb_true_iff in H; destruct H as [E H]. apply is_char_eq in E; subst.
      do 5 one_step H. exists a, a0, u. split; [right; reflexivity | auto].
    + do 5 one_step H. exists a, a0, u. split; [left; reflexivity | auto].
  - intros (c1 & c2 & rest & [-> | ->] & H1 & H2); unfold is_url; simpl append; cbv iota;
      unfold url_regex, Re.lit;
      repeat (rewrite matches_one; simpl Str.is_char; cbv iota);
      rewrite matches_opt; repeat (rewrite matches_one; simpl Str.is_char; cbv iota).
    all: rewrite ?H1, ?H2, ?matches_star_last; simpl; try reflexivity.
Qed.

Lemma kerk_urls_In pkn_kerken u :
  In u (kerk_urls pkn_kerken) <->
  exists k, In k pkn_kerken /\ website k = u /\ is_url u = true.
Proof.
  unfold kerk_urls. rewrite in_map_iff. split.
  - intros (k & <- & Hk). apply filter_In in Hk. exists k. tauto.
  - intros (k & Hk & <- & Hu). exists k. split; auto. apply filter_In. auto.
Qed.

(* ===================================================================== *)
(** ** Facts about the table *)
(* ===================================================================== *)

Lemma Cell_eqb_spec a b : reflect (a = b) (Cell_eqb a b).
Proof.
  destruct a, b; simpl; try (constructor; congruence).
  - destruct (String.eqb_spec s s0); constructor; congruence.
  - destruct (list_eq_dec string_dec l l0); constructor; congruence.
Qed.

Lemma existsb_Cell_In c seen : existsb (Cell_eqb c) seen = true <-> In c seen.
Proof.
  rewrite existsb_exists. split.
  - intros (x & Hin & Heq). destruct (Cell_eqb_spec c x); congruence.
  - intros Hin. exists c. split; auto. destruct (Cell_eqb_spec c c); congruence.
Qed.

Lemma drop_duplicates_seen_In seen t r :
  In r (drop_duplicates_seen seen t) -> In r t /\ ~ In (email r) seen.
Proof.
  revert seen. induction t as [|x t IH]; simpl; intros seen H; [tauto|].
  destruct (existsb (Cell_eqb (email x)) seen) eqn:E.
  - apply IH in H. tauto.
  - destruct H as [->|H].
    + split; auto. intro Hin. apply existsb_Cell_In in Hin. congruence.
    + apply IH in H. simpl in H. tauto.
Qed.

Lemma drop_duplicates_seen_NoDup seen t :
  NoDup (map email (drop_duplicates_seen seen t)).
Proof.
  revert seen. induction t as [|x t IH]; simpl; intros seen; [constructor|].
  destruct (existsb (Cell_eqb (email x)) seen) eqn:E; auto.
  simpl. constructor; auto.
  intro Hin. apply in_map_iff in Hin. destruct Hin as (r & Hr & Hin).
  apply drop_duplicates_seen_In in Hin. simpl in Hin. intuition congruence.
Qed.

Lemma drop_duplicates_seen_first seen t r :
  In r (drop_duplicates_seen seen t) ->
  exists pre post, t = pre ++ r :: post /\ ~ In (email r) (map email pre).
Proof.
  revert seen. induction t as [|x t IH]; simpl; intros seen H; [tauto|].
  destruct (existsb (Cell_eqb (email x)) seen) eqn:E.
  - destruct (IH _ H) as (pre & post & -> & Hn).
    pose proof (drop_duplicates_seen_In _ _ _ H) as [_ Hs].
    exists (x :: pre), post. split; auto. simpl. intros [Hx|Hx]; auto.
    apply Hs. rewrite <- Hx. apply existsb_Cell_In. exact E.
  - destruct H as [->|H].
    + exists [], t. simpl. auto.
    + destruct (IH _ H) as (pre & post & -> & Hn).
      pose proof (drop_duplicates_seen_In _ _ _ H) as [_ Hs].
      exists (x :: pre), post. split; auto. simpl in *. intuition.
Qed.

Lemma drop_duplicates_seen_covers seen t r :
  In r t -> In (email r) seen \/ In (email r) (map email (drop_duplicates_seen seen t)).
Proof.
  revert seen. induction t as [|x t IH]; simpl; intros seen H; [tauto|].
  destruct (existsb (Cell_eqb (email x)) seen) eqn:E.
  - destruct H as [->|H]; [left; apply existsb_Cell_In; exact E|]. auto.
  - destruct H as [->|H]; [right; simpl; auto|].
    destruct (IH (email x :: seen) H) as [[Hx|Hs]|Hd]; simpl; auto.
Qed.

Lemma DataFrame_from_In i rs r :
  In r (DataFrame_from i rs) -> In (url r, email r) rs.
Proof.
  revert i. induction rs as [|[u e] rs IH]; simpl; intros i H; [tauto|].
  destruct H as [<-|H]; simpl; eauto.
Qed.

Lemma rows_In d u c :
  In (u, c) (rows d) ->
  exists values value, In (u, values) d /\ In value values /\ c = Items value.
Proof.
  unfold rows. rewrite in_flat_map. intros ([key values] & Hd & Hin). simpl in Hin.
  apply in_map_iff in Hin. destruct Hin as (value & Heq & Hv).
  destruct values as [|v0 vs]; [destruct Hv|]. simpl in Heq.
  inversion Heq; subst. eauto.
Qed.

Lemma df_exploded_In d r :
  In r (df_exploded d) ->
  exists values value,
    In (url r, values) d /\ In value values /\
    ((value = [] /\ email r = NaN) \/ exists s, In s value /\ email r = Text s).
Proof.
  unfold df_exploded, explode. rewrite in_flat_map. intros (r0 & H0 & Hr).
  apply DataFrame_from_In in H0. apply rows_In in H0.
  destruct H0 as (values & value & Hd & Hv & He).
  unfold explode_row in Hr. rewrite He in Hr.
  destruct value as [|s0 value].
  - destruct Hr as [<-|[]]. simpl. exists values, []. eauto.
  - apply in_map_iff in Hr. destruct Hr as (s & <- & Hs). simpl.
    exists values, (s0 :: value). eauto 6.
Qed.

(* ===================================================================== *)
(** ** Facts about the cache and about running a coroutine *)
(* ===================================================================== *)

Lemma run_bind {A B} (c : Coro A) (f : A -> Coro B) env n w :
  run (bind c f) env n w =
  match run c env n w with
  | (n1, w1, inr a) => run (f a) env n1 w1
  | (n1, w1, inl e) => (n1, w1, inl e)
  end.
Proof.
  revert n w. induction c as [a|e|k IH|w' k IH|u k IH]; intros n w; simpl; auto.
Qed.

Lemma run_catch {A} (c : Coro A) (h : PyExc -> Coro A) env n w :
  run (catch c h) env n w =
  match run c env n w with
  | (n1, w1, inl e) => run (h e) env n1 w1
  | x => x
  end.
Proof.
  revert n w. induction c as [a|e|k IH|w' k IH|u k IH]; intros n w; simpl; auto.
Qed.

Lemma nth_error_snoc {X} (l : list X) x : nth_error (l ++ [x]) (length l) = Some x.
Proof. induction l; simpl; auto. Qed.

Lemma run_await_fetch_miss session url env n w :
  fst (TTLCache.getitem key_eqb (hashkey session url) (now w) (cache w)) = None ->
  result_of (run (await_fetch session url) env n w) = inr (text_of (arrives (env n))).
Proof.
  intros Hmiss. unfold await_fetch, fetch. simpl.
  destruct (TTLCache.getitem key_eqb (hashkey session url) (now w) (cache w)) as [hit c'].
  simpl in Hmiss. subst hit. simpl.
  rewrite nth_error_snoc. simpl.
  destruct (arrives (env n)) as [st rs b|msg]; simpl; [|reflexivity].
  unfold raise_for_status. simpl. destruct (400 <=? st); reflexivity.
Qed.

Section CacheFacts.

Variables K V : Type.
Variable eqb : K -> K -> bool.
Hypothesis eqb_refl : forall k, eqb k k = true.

Implicit Types (es : list (TTLCache.entry K V)) (e : TTLCache.entry K V).

Lemma absent_without k es : absent eqb k (TTLCache.without eqb k es).
Proof.
  intros e He. apply filter_In in He. destruct He as [_ He].
  destruct (TTLCache.has_key eqb k e); [discriminate|reflexivity].
Qed.

Lemma absent_filter k p es : absent eqb k es -> absent eqb k (filter p es).
Proof. intros H e He. apply filter_In in He. apply H. tauto. Qed.

Lemma absent_skipn k n es : absent eqb k es -> absent eqb k (skipn n es).
Proof.
  intros H e He. apply H. rewrite <- (firstn_skipn n es). apply in_or_app. auto.
Qed.

Lemma absent_find k es : find (TTLCache.has_key eqb k) es = None -> absent eqb k es.
Proof. intros H e He. exact (find_none _ _ H e He). Qed.

Lemma absent_existsb k es : absent eqb k es -> existsb (TTLCache.has_key eqb k) es = false.
Proof.
  intros H. destruct (existsb (TTLCache.has_key eqb k) es) eqn:E; [|reflexivity].
  apply existsb_exists in E. destruct E as (e & He & Hk). rewrite (H e He) in Hk. discriminate.
Qed.

Lemma find_last k es e :
  absent eqb k es -> TTLCache.has_key eqb k e = true ->
  find (TTLCache.has_key eqb k) (es ++ [e]) = Some e.
Proof.
  intros Ha Hk. induction es as [|x es IH]; simpl.
  - rewrite Hk. reflexivity.
  - rewrite (Ha x (or_introl eq_refl)). apply IH. intros y Hy. apply Ha. right. exact Hy.
Qed.

(** After a miss the wrapper stores the new value; a lookup before the
    time to live is over finds it. *)
Lemma getitem_setitem k (v : V) time time' (c c' : TTLCache.t K V) :
  TTLCache.getitem eqb k time c = (None, c') ->
  TTLCache.maxsize c <> 0 ->
  (time' < time + TTLCache.ttl c)%N ->
  fst (TTLCache.getitem eqb k time' (TTLCache.setitem eqb k v time c')) = Some v.
Proof.
  intros Hget Hmax Hlive.
  assert (Hc' : TTLCache.maxsize c' = TTLCache.maxsize c /\ TTLCache.ttl c' = TTLCache.ttl c
                /\ absent eqb k (filter (TTLCache.live time) (TTLCache.entries c'))).
  { unfold TTLCache.getitem in Hget.
    destruct (find (TTLCache.has_key eqb k) (TTLCache.entries c)) as [e|] eqn:Ef.
    - destruct (TTLCache.live time e) eqn:El; [discriminate|].
      inversion Hget; subst c'; clear Hget. simpl. repeat split.
      rewrite filter_app. simpl. rewrite El. rewrite app_nil_r.
      apply absent_filter, absent_without.
    - inversion Hget; subst c'. repeat split. apply absent_filter, absent_find. exact Ef. }
  destruct Hc' as (Hm & Ht & Ha).
  unfold TTLCache.setitem. simpl.
  destruct (TTLCache.maxsize c' =? 0) eqn:E0.
  { apply Nat.eqb_eq in E0. congruence. }
  rewrite (absent_existsb Ha). simpl.
  unfold TTLCache.getitem. simpl.
  rewrite find_last.
  - unfold TTLCache.live. simpl. rewrite Ht.
    destruct (N.ltb_spec time' (time + TTLCache.ttl c)); [reflexivity|lia].
  - apply absent_skipn. exact Ha.
  - unfold TTLCache.has_key. simpl. apply eqb_refl.
Qed.

End CacheFacts.

Lemma key_eqb_refl k : key_eqb k k = true.
Proof. unfold key_eqb. rewrite Nat.eqb_refl, String.eqb_refl. reflexivity. Qed.

Lemma set_state_snoc cs c s :
  nth_error (set_state (length cs) s (cs ++ [c])) (length cs)
  = Some (Coroutine (co_session c) (co_url c) s).
Proof. induction cs; simpl; auto. Qed.

Lemma set_state_length i s cs : length (set_state i s cs) = length cs.
Proof. revert i. induction cs; intros [|i]; simpl; auto. Qed.

Lemma set_state_set_state i s s' cs :
  set_state i s' (set_state i s cs) = set_state i s' cs.
Proof. revert i. induction cs; intros [|i]; simpl; auto. f_equal; auto. Qed.

Lemma await_fetch_miss_later session url o dt n w c' :
  TTLCache.getitem key_eqb (hashkey session url) (now w) (cache w) = (None, c') ->
  exists w1,
    run (await_fetch session url) (fun _ => later dt o) n w = (S n, w1, inr (text_of o))
    /\ now w1 = (now w + dt)%N
    /\ cache w1 = TTLCache.setitem key_eqb (hashkey session url)
                                   (length (coroutines w)) (now w) c'
    /\ nth_error (coroutines w1) (length (coroutines w))
       = Some (Coroutine session url CORO_CLOSED)
    /\ requests w1 = requests w ++ [url].
Proof.
  intros Hget. unfold await_fetch, fetch. simpl. rewrite Hget. simpl.
  rewrite nth_error_snoc. simpl.
  destruct o as [st rs b|msg]; simpl;
    [unfold raise_for_status; simpl; destruct (400 <=? st); simpl|];
    eexists; (split; [reflexivity|]); simpl; repeat split;
    rewrite set_state_set_state; apply set_state_snoc.
Qed.

Lemma await_fetch_hit session url env n w v :
  fst (TTLCache.getitem key_eqb (hashkey session url) (now w) (cache w)) = Some v ->
  forall s u st, nth_error (coroutines w) v = Some (Coroutine s u st) ->
  st <> CORO_CREATED ->
  let x := run (await_fetch session url) env n w in
  result_of x =
    inl (RuntimeError (match st with
                       | CORO_SUSPENDED => "coroutine is being awaited already"
                       | _ => "cannot reuse already awaited coroutine"
                       end))
  /\ requests (world_of x) = requests w
  /\ coroutines (world_of x) = coroutines w.
Proof.
  intros Hhit s u st Hnth Hst. unfold await_fetch, fetch. simpl.
  destruct (TTLCache.getitem key_eqb (hashkey session url) (now w) (cache w)) as [hit c'].
  simpl in Hhit. subst hit. simpl. rewrite Hnth.
  destruct st; simpl; auto. congruence.
Qed.

Lemma run_extract session url regex env n w :
  result_of (run (extract_emails_from_page session url regex) env n w) =
  match result_of (run (await_fetch session url) env n w) with
  | inr html_content => inr (Re.findall regex html_content)
  | inl e => inr [str e]
  end.
Proof.
  unfold extract_emails_from_page, await_fetch.
  rewrite run_catch, !run_bind.
  destruct (run (fetch session url) env n w) as [[n1 w1] [e|c]]; [reflexivity|].
  rewrite run_bind.
  destruct (run (await c) env n1 w1) as [[n2 w2] [e|html]]; reflexivity.
Qed.

Lemma run_get_contact_page_urls parser session main_url keywords env n w :
  result_of (run (get_contact_page_urls parser session main_url keywords) env n w) =
  match result_of (run (await_fetch session main_url) env n w) with
  | inr html_content =>
      match parser html_content with
      | inr hrefs => inr (filter (any_keyword_in keywords) hrefs)
      | inl e => inr [str e]
      end
  | inl e => inr [str e]
  end.
Proof.
  unfold get_contact_page_urls, await_fetch.
  rewrite run_catch, !run_bind.
  destruct (run (fetch session main_url) env n w) as [[n1 w1] [e|c]]; [reflexivity|].
  rewrite run_bind.
  destruct (run (await c) env n1 w1) as [[n2 w2] [e|html]]; [reflexivity|].
  rewrite run_bind. unfold BeautifulSoup, result_of. simpl.
  destruct (parser html) as [e|hrefs]; reflexivity.
Qed.

Lemma run_for_each {A B} (f : A -> Coro B) :
  (forall x env n w, exists y, result_of (run (f x) env n w) = inr y) ->
  forall xs env n w,
  exists ys,
    result_of (run (for_each f xs) env n w) = inr ys
    /\ length ys = length xs
    /\ one_by_one f env n w xs ys.
Proof.
  intros Hf xs env. induction xs as [|x xs IH]; intros n w.
  - exists []. simpl. auto.
  - cbn [for_each]. rewrite run_bind.
    destruct (Hf x env n w) as (y & Hy).
    destruct (run (f x) env n w) as [[n1 w1] r] eqn:Hrun.
    unfold result_of in Hy. simpl in Hy. subst r.
    rewrite run_bind.
    destruct (IH n1 w1) as (ys & Hys & Hlen & Hone).
    destruct (run (for_each f xs) env n1 w1) as [[n2 w2] r2].
    unfold result_of in Hys. simpl in Hys. subst r2.
    exists (y :: ys). simpl. rewrite Hrun. unfold result_of, next_of, world_of. simpl.
    auto.
Qed.

(* ===================================================================== *)
(** ** Facts that hold under every interleaving *)
(* ===================================================================== *)

Lemma Always_any {A} (c : Coro A) : Always (fun _ => True) c.
Proof. induction c; constructor; auto. Qed.

Lemma Always_weaken {A} (P Q : PyExc + A -> Prop) (c : Coro A) :
  (forall r, P r -> Q r) -> Always P c -> Always Q c.
Proof. intros H Hc. induction Hc; constructor; auto. Qed.

Lemma Always_bind {A B} (P : PyExc + A -> Prop) (Q : PyExc + B -> Prop)
      (c : Coro A) (f : A -> Coro B) :
  Always P c ->
  (forall a, P (inr a) -> Always Q (f a)) ->
  (forall e, P (inl e) -> Q (inl e)) ->
  Always Q (bind c f).
Proof.
  intros Hc Hf He. induction Hc; simpl; auto; constructor; auto.
Qed.

Lemma Always_catch {A} (P Q : PyExc + A -> Prop) (c : Coro A) (h : PyExc -> Coro A) :
  Always P c ->
  (forall a, P (inr a) -> Q (inr a)) ->
  (forall e, P (inl e) -> Always Q (h e)) ->
  Always Q (catch c h).
Proof.
  intros Hc Ha Hh. induction Hc; simpl; auto; constructor; auto.
Qed.

Lemma Always_run {A} (P : PyExc + A -> Prop) (c : Coro A) env n w :
  Always P c -> P (result_of (run c env n w)).
Proof.
  intros H. revert n w. induction H; intros n w'; simpl; auto.
Qed.

Lemma Always_logging_ret {A} r (a : A) (P : PyExc + A -> Prop) :
  P (inr a) -> Always P (logging r ;; ret a).
Proof. intros H. simpl. repeat constructor. exact H. Qed.

Lemma get_contact_page_urls_returns parser session main_url keywords :
  Always returns (get_contact_page_urls parser session main_url keywords).
Proof.
  unfold get_contact_page_urls.
  eapply Always_catch; [apply Always_any| |].
  - intros a _. exists a. reflexivity.
  - intros e _. apply Always_logging_ret. eexists. reflexivity.
Qed.

Lemma fetch_body_returns session url : Always returns (fetch_body session url).
Proof.
  unfold fetch_body.
  eapply Always_catch; [apply Always_any| |].
  - intros a _. exists a. reflexivity.
  - intros e _. apply Always_logging_ret. eexists. reflexivity.
Qed.

Lemma fetch_returns session url : Always returns (fetch session url).
Proof.
  unfold fetch. simpl. constructor. intros w.
  destruct (TTLCache.getitem key_eqb (hashkey session url) (now w) (cache w))
    as [[v|] c']; repeat constructor; eexists; reflexivity.
Qed.

Lemma modify_world_returns f : Always returns (modify_world f).
Proof. unfold modify_world. repeat constructor. eexists. reflexivity. Qed.

Lemma await_text_or_error c : Always text_or_await_error (await c).
Proof.
  unfold await.
  eapply (Always_bind (P := returns)).
  - unfold get_world. repeat constructor. eexists. reflexivity.
  - intros w _.
    destruct (nth_error (coroutines w) c) as [[session url [| |]]|].
    + eapply (Always_bind (P := returns)); [apply modify_world_returns| |].
      * intros _ _. eapply (Always_bind (P := returns)).
        -- eapply Always_catch; [apply fetch_body_returns| |].
           ++ intros a _. exists a. reflexivity.
           ++ intros e [a Ha]. discriminate.
        -- intros text _.
           eapply (Always_bind (P := returns)); [apply modify_world_returns| |].
           ++ intros _ _. apply Always_Ret. left. eexists. reflexivity.
           ++ intros e [a Ha]. discriminate.
        -- intros e [a Ha]. discriminate.
      * intros e [a Ha]. discriminate.
    + apply Always_Throw. right. eexists. split; [reflexivity|]. left. reflexivity.
    + apply Always_Throw. right. eexists. split; [reflexivity|]. right. reflexivity.
    + apply Always_Throw. right. eexists. split; [reflexivity|]. right. reflexivity.
  - intros e [a Ha]. discriminate.
Qed.

Lemma extract_emails_from_page_strings session url regex :
  Always (returns_all (found_or_error regex))
         (extract_emails_from_page session url regex).
Proof.
  unfold extract_emails_from_page.
  eapply (Always_catch (P := fun r =>
            match r with
            | inr l => Forall (found_or_error regex) l
            | inl e => exists m, e = RuntimeError m /\ await_error m
            end)).
  - eapply Always_bind; [apply fetch_returns| |].
    + intros c _. eapply Always_bind; [apply await_text_or_error| |].
      * intros html _. constructor. apply Forall_forall. intros s Hs.
        left. eapply findall_whole. exact Hs.
      * intros e [[a Ha]|(m & Hm & Herr)]; [discriminate|].
        inversion Hm; subst. eauto.
    + intros e [a Ha]. discriminate.
  - intros l Hl. exists l. auto.
  - intros e (m & -> & Herr). apply Always_logging_ret.
    eexists. split; [reflexivity|]. constructor; [|constructor].
    right. exact Herr.
Qed.

Lemma extract_emails_from_page_returns session url regex :
  Always returns (extract_emails_from_page session url regex).
Proof.
  eapply Always_weaken; [|apply extract_emails_from_page_strings].
  intros r (l & -> & _). exists l. reflexivity.
Qed.

Lemma for_each_returns_all {A B} (Q : B -> Prop) (f : A -> Coro B) xs :
  (forall x, Always (fun r => exists y, r = inr y /\ Q y) (f x)) ->
  Always (returns_all Q) (for_each f xs).
Proof.
  intros Hf. induction xs as [|x xs IH]; cbn [for_each].
  - constructor. exists []. auto.
  - eapply Always_bind; [apply Hf| |].
    + intros y (y' & Hy & HQ). inversion Hy; subst y'.
      eapply Always_bind; [apply IH| |].
      * intros ys (ys' & Hys & HQs). inversion Hys; subst ys'.
        constructor. exists (y :: ys). auto.
      * intros e (l & Hl & _). discriminate.
    + intros e (y & Hy & _). discriminate.
Qed.

Lemma process_kerk_url_returns_seed parser session kerk_url keywords regex :
  Always (returns_seed regex kerk_url)
         (process_kerk_url parser session kerk_url keywords regex).
Proof.
  unfold process_kerk_url.
  eapply Always_bind; [apply get_contact_page_urls_returns| |].
  - intros pages _. eapply Always_bind.
    + eapply for_each_returns_all with (Q := Forall (found_or_error regex)).
      intros page. eapply Always_weaken; [|apply extract_emails_from_page_strings].
      intros r (l & -> & Hl). eauto.
    + intros emails (l & Hl & Hall). inversion Hl; subst l.
      constructor. exists emails. auto.
    + intros e (l & Hl & _). discriminate.
  - intros e [a Ha]. discriminate.
Qed.

(* ===================================================================== *)
(** ** Facts about the event loop *)
(* ===================================================================== *)

Lemma settle_task_always (P : PyExc + Result -> Prop) (c : Coro Result) w :
  Always P c -> task_always P (snd (settle c w)).
Proof.
  intros H. revert w. induction H; intros w'; simpl; auto.
Qed.

Lemma settle_not_pending {R} (c : Coro R) w : is_pending (snd (settle c w)) = false.
Proof. revert w. induction c; intros w'; simpl; auto. Qed.

Lemma settle_acc {R} (c : Coro R) w :
  Acc (fun a b => task_step b a) (snd (settle c w)).
Proof.
  revert w. induction c as [a|e|k IH|w' k IH|u k IH]; intros w; simpl; auto.
  - constructor. intros t Ht. inversion Ht.
  - constructor. intros t Ht. inversion Ht.
  - constructor. intros t Ht. inversion Ht; subst. apply IH.
Qed.

Lemma task_acc {R} (t : Task R) : Acc (fun a b => task_step b a) t.
Proof.
  constructor. intros t' Ht. inversion Ht; subst; apply settle_acc.
Qed.

Lemma tasks_acc {R} (ts : list (Task R)) : Acc (fun a b => tasks_step b a) ts.
Proof.
  induction ts as [|t ts IH].
  - constructor. intros ts' H. inversion H.
  - pose proof (task_acc t) as Ht. revert ts IH.
    induction Ht as [t _ IHt]. intros ts Hts.
    induction Hts as [ts Hacc IHts].
    constructor. intros ts' Hstep. inversion Hstep; subst.
    + apply IHt; auto. constructor. exact Hacc.
    + apply IHts. assumption.
Qed.

Lemma dict_keys_set k v d s :
  In s (dict_keys (dict_set k v d)) <-> s = k \/ In s (dict_keys d).
Proof.
  induction d as [|[k' v'] d IH]; simpl.
  - intuition.
  - destruct (String.eqb_spec k k'); simpl.
    + subst. intuition.
    + rewrite IH. intuition.
Qed.

Lemma dict_set_NoDup k v d : NoDup (dict_keys d) -> NoDup (dict_keys (dict_set k v d)).
Proof.
  induction d as [|[k' v'] d IH]; simpl; intros H.
  - constructor; [intros []|constructor].
  - inversion H; subst. destruct (String.eqb_spec k k'); simpl.
    + subst. constructor; auto.
    + constructor; auto. intro Hin. apply dict_keys_set in Hin.
      destruct Hin; [congruence|contradiction].
Qed.

Lemma positions_In {R} (p : Task R -> bool) ts : forall j i,
  In i (positions p j ts) ->
  exists t, j <= i /\ nth_error ts (i - j) = Some t /\ p t = true.
Proof.
  induction ts as [|t ts IH]; simpl; intros j i H; [contradiction|].
  assert (Hrec : In i (positions p (S j) ts) ->
                 exists t0, j <= i /\ nth_error (t :: ts) (i - j) = Some t0 /\ p t0 = true).
  { intros Hi. destruct (IH _ _ Hi) as (t0 & Hle & Hn & Hp).
    exists t0. split; [lia|]. split; auto.
    replace (i - j) with (S (i - S j)) by lia. exact Hn. }
  destruct (p t) eqn:E; auto.
  destruct H as [<-|H]; auto.
  exists t. rewrite Nat.sub_diag. auto.
Qed.

Lemma chosen_In n l : l <> [] -> In (chosen n l) l.
Proof.
  intros H. unfold chosen. apply nth_In.
  apply Nat.mod_upper_bound. destruct l; [congruence|discriminate].
Qed.

Lemma positions_nil {R} (p : Task R -> bool) ts : forall j,
  positions p j ts = [] -> forall t, In t ts -> p t = false.
Proof.
  induction ts as [|t ts IH]; simpl; intros j H x Hx; [contradiction|].
  destruct (p t) eqn:E; [discriminate|].
  destruct Hx as [<-|Hx]; eauto.
Qed.

Lemma replace_nth_step {R} (ts : list (Task R)) : forall i t t',
  nth_error ts i = Some t -> task_step t t' -> tasks_step ts (replace_nth i t' ts).
Proof.
  induction ts as [|x ts IH]; intros [|i] t t' Hn Hs; simpl in *; try discriminate.
  - inversion Hn; subst. constructor. exact Hs.
  - constructor. eapply IH; eauto.
Qed.

Lemma Forall2_replace_nth {X Y} (R : X -> Y -> Prop) xs ys :
  Forall2 R xs ys ->
  forall i y, nth_error ys i = Some y ->
  exists x, In x xs /\ R x y /\
    forall (R' : X -> Y -> Prop) y',
      (forall a b, R a b -> R' a b) -> R' x y' ->
      Forall2 R' xs (replace_nth i y' ys).
Proof.
  induction 1 as [|x0 y0 xs ys H0 H IH]; intros [|i] y Hn; simpl in *; try discriminate.
  - inversion Hn; subst. exists x0. split; [auto|split; [auto|]].
    intros R' y' Himp Hy'. constructor; auto.
    eapply Forall2_impl; eauto.
  - destruct (IH i y Hn) as (x & Hin & Hr & Hrep).
    exists x. split; [auto|split; [auto|]].
    intros R' y' Himp Hy'. constructor; auto.
Qed.

Lemma step_progress ev st :
  loop_over st = false ->
  exists i t t' w',
    nth_error (tasks st) i = Some t
    /\ task_step t t'
    /\ is_pending t' = false
    /\ (forall P, task_always P t -> task_always P t')
    /\ step ev st = MkLoop w' (replace_nth i t' (tasks st))
                          (completed t' (kerk_emails st)).
Proof.
  intros Hover. unfold step.
  set (w := set_now (now (world st) + elapsed ev)%N (world st)).
  destruct (positions is_pending 0 (tasks st)) as [|p0 ps] eqn:Ep.
  - destruct (positions is_waiting 0 (tasks st)) as [|q0 qs] eqn:Eq.
    + exfalso. unfold loop_over in Hover.
      destruct (kerk_emails st); [discriminate|].
      assert (forallb is_finished (tasks st) = true); [|congruence].
      apply forallb_forall. intros t Ht.
      pose proof (positions_nil _ _ _ Ep t Ht).
      pose proof (positions_nil _ _ _ Eq t Ht).
      destruct t; simpl in *; congruence.
    + assert (Hin : In (chosen (pick ev) (q0 :: qs)) (positions is_waiting 0 (tasks st))).
      { rewrite Eq. apply chosen_In. discriminate. }
      apply positions_In in Hin. destruct Hin as (t & _ & Hn & Hp).
      rewrite Nat.sub_0_r in Hn. cbv zeta. rewrite Hn.
      destruct t as [c|url k|r]; try discriminate.
      destruct (settle (k (outcome ev)) w) as [w' t'] eqn:Es.
      exists (chosen (pick ev) (q0 :: qs)), (Waiting url k), t', w'.
      replace t' with (snd (settle (k (outcome ev)) w)) by (rewrite Es; reflexivity).
      repeat split; auto.
      * constructor.
      * apply settle_not_pending.
      * intros P HP. apply settle_task_always. apply HP.
  - assert (Hin : In (chosen (pick ev) (p0 :: ps)) (positions is_pending 0 (tasks st))).
    { rewrite Ep. apply chosen_In. discriminate. }
    apply positions_In in Hin. destruct Hin as (t & _ & Hn & Hp).
    rewrite Nat.sub_0_r in Hn. cbv zeta. rewrite Hn.
    destruct t as [c|url k|r]; try discriminate.
    destruct (settle c w) as [w' t'] eqn:Es.
    exists (chosen (pick ev) (p0 :: ps)), (Pending c), t', w'.
    replace t' with (snd (settle c w)) by (rewrite Es; reflexivity).
    repeat split; auto.
    * constructor.
    * apply settle_not_pending.
    * intros P HP. apply settle_task_always. apply HP.
Qed.

Lemma dict_set_values_ok regex k v d :
  Forall (Forall (found_or_error regex)) v ->
  dict_values_ok regex d -> dict_values_ok regex (dict_set k v d).
Proof.
  intros Hv Hd. induction Hd as [|[k' v'] d Hx Hd IH]; simpl.
  - constructor; [exact Hv|constructor].
  - destruct (String.eqb k k'); constructor; auto.
Qed.

Lemma step_inv regex seeds ev st :
  loop_over st = false -> loop_inv regex seeds st ->
  loop_inv regex seeds (step ev st) /\ tasks_step (tasks st) (tasks (step ev st)).
Proof.
  intros Hover (d & Hd & Hnd & Hincl & Hval & Hall).
  destruct (step_progress ev st Hover) as (i & t & t' & w' & Hn & Hs & Hp & Hfor & Hstep).
  rewrite Hstep. simpl. split; [|eapply replace_nth_step; eauto].
  destruct (Forall2_replace_nth Hall i Hn) as (u & Hu & [Hut Hfin] & Hrep).
  unfold loop_inv. simpl. rewrite Hd.
  pose proof (Hfor _ Hut) as Hut'.
  destruct t' as [c|url k|[e|[u' emails]]]; simpl in *; try discriminate.
  - exists d. repeat split; auto.
    apply Hrep; auto. split; auto. discriminate.
  - destruct Hut' as (? & Habs & _). discriminate.
  - destruct Hut' as (emails' & Heq & Hok). inversion Heq; subst u' emails'.
    exists (dict_set u emails d). repeat split.
    + apply dict_set_NoDup. exact Hnd.
    + intros s Hs'. apply dict_keys_set in Hs'. destruct Hs' as [->|Hs']; auto.
    + apply dict_set_values_ok; assumption.
    + apply Hrep.
      * intros a b [Hab Hab']. split; auto. intros Hb. apply dict_keys_set. auto.
      * split; [exists emails; auto|]. intros _. apply dict_keys_set. auto.
Qed.

Lemma as_completed_total regex seeds env :
  forall ts, Acc (fun a b => tasks_step b a) ts ->
  forall n w acc,
    loop_inv regex seeds (MkLoop w ts acc) ->
    exists fuel st',
      as_completed fuel env n (MkLoop w ts acc) = Some st'
      /\ loop_inv regex seeds st' /\ loop_over st' = true.
Proof.
  induction 1 as [ts _ IH]. intros n w acc Hinv.
  destruct (loop_over (MkLoop w ts acc)) eqn:Hover.
  - exists 0, (MkLoop w ts acc). simpl. rewrite Hover. auto.
  - destruct (step_inv (env n) Hover Hinv) as [Hinv' Hstep].
    destruct (step (env n) (MkLoop w ts acc)) as [w' ts' acc'] eqn:Est. simpl in Hstep.
    destruct (IH ts' Hstep (S n) w' acc' Hinv') as (fuel & st' & Hrun & Hi & Ho).
    exists (S fuel), st'. simpl. rewrite Hover, Est. auto.
Qed.

Lemma as_completed_more fuel extra env n st st' :
  as_completed fuel env n st = Some st' ->
  as_completed (fuel + extra) env n st = Some st'.
Proof.
  revert n st. induction fuel as [|fuel IH]; intros n st; simpl.
  - destruct (loop_over st) eqn:E; [|discriminate].
    intros H. destruct extra; simpl; rewrite E; exact H.
  - destruct (loop_over st); auto.
Qed.

Lemma loop_inv_over regex seeds st :
  loop_inv regex seeds st -> loop_over st = true ->
  exists d, kerk_emails st = inr d /\ NoDup (dict_keys d)
            /\ (forall s, In s (dict_keys d) <-> In s seeds)
            /\ dict_values_ok regex d.
Proof.
  intros (d & Hd & Hnd & Hincl & Hval & Hall) Hover.
  exists d. repeat split; auto.
  unfold loop_over in Hover. rewrite Hd in Hover.
  rewrite forallb_forall in Hover.
  clear Hd Hincl. induction Hall as [|u t us ts [_ Hfin] Hall IH]; simpl; [tauto|].
  intros [<-|Hs].
  - apply Hfin. apply Hover. left. reflexivity.
  - apply IH; auto. intros x Hx. apply Hover. right. exact Hx.
Qed.

(** [main] comes to an end, with every seed as a key, once, and with
    nothing but matches and error texts in the values. *)
Lemma main_total parser kerk_urls keywords regex env w :
  exists fuel w' d,
    (forall extra,
        main parser kerk_urls keywords regex env (fuel + extra) w = Some (w', inr d))
    /\ NoDup (dict_keys d)
    /\ (forall s, In s (dict_keys d) <-> In s kerk_urls)
    /\ dict_values_ok regex d.
Proof.
  unfold main.
  set (ts := map (fun kerk_url =>
                    Pending (process_kerk_url parser (sessions w) kerk_url
                                              keywords regex))
                 kerk_urls).
  assert (Hinv : loop_inv regex kerk_urls
                          (MkLoop (set_sessions (S (sessions w)) w) ts (inr []))).
  { exists []. simpl. repeat split; [constructor|intros s []|constructor|].
    subst ts. induction kerk_urls as [|u us IH]; simpl; constructor; auto.
    split; [|discriminate]. simpl. apply process_kerk_url_returns_seed. }
  destruct (as_completed_total env (tasks_acc ts) 0 Hinv) as (fuel & st' & Hrun & Hi & Ho).
  destruct (loop_inv_over Hi Ho) as (d & Hd & Hnd & Hkeys & Hval).
  exists fuel, (world st'), d. repeat split; auto; try apply Hkeys.
  intros extra. rewrite (@as_completed_more fuel extra env 0 _ st' Hrun).
  rewrite Hd. reflexivity.
Qed.

(** Whatever [main] returns with some bound on the steps is what it
    returns with every bound that suffices. *)
Lemma main_result parser kerk_urls keywords regex env fuel w w' r :
  main parser kerk_urls keywords regex env fuel w = Some (w', r) ->
  exists d,
    r = inr d /\ NoDup (dict_keys d)
    /\ (forall s, In s (dict_keys d) <-> In s kerk_urls)
    /\ dict_values_ok regex d.
Proof.
  intros Hm.
  destruct (main_total parser kerk_urls keywords regex env w)
    as (fuel0 & w0 & d & Hmain & Hnd & Hkeys & Hval).
  exists d. repeat split; auto; try apply Hkeys.
  pose proof (Hmain fuel) as H0.
  assert (H1 : main parser kerk_urls keywords regex env (fuel + fuel0) w = Some (w', r)).
  { unfold main in *.
    destruct (as_completed fuel env 0 _) as [st|] eqn:E; [|discriminate].
    rewrite (@as_completed_more fuel fuel0 env 0 _ st E). exact Hm. }
  rewrite Nat.add_comm in H1. rewrite H0 in H1. inversion H1. reflexivity.
Qed.

(* ===================================================================== *)
(** ** The fetcher (C1, C2, C10) *)
(* ===================================================================== *)

(** C1.  The cache of [fetch] holds the coroutine object that the first
    call made, not the text it produced.  When the first call missed the
    cache and the second call comes before the time to live is over
    (nothing else touching the cache in between), the second call finds
    that same object, sends no second request, and awaiting it raises
    [RuntimeError] instead of giving the text of the first call. *)
Theorem fetch_twice_second_await_raises session url o dt n w :
  fst (TTLCache.getitem key_eqb (hashkey session url) (now w) (cache w)) = None ->
  TTLCache.maxsize (cache w) <> 0 ->
  (dt < TTLCache.ttl (cache w))%N ->
  result_of (run (fetch_twice session url) (fun _ => later dt o) n w)
  = inl (RuntimeError "cannot reuse already awaited coroutine")
  /\ requests (world_of (run (fetch_twice session url) (fun _ => later dt o) n w))
     = requests w ++ [url].
Proof.
  intros Hmiss Hmax Hdt. unfold fetch_twice.
  change (first <- await_fetch session url ;; ?k)
    with (bind (await_fetch session url) (fun first => k)).
  destruct (TTLCache.getitem key_eqb (hashkey session url) (now w) (cache w))
    as [hit c'] eqn:Hget.
  simpl in Hmiss. subst hit.
  destruct (await_fetch_miss_later session url o dt n w Hget)
    as (w1 & Hrun & Hnow & Hcache & Hco & Hreq).
  rewrite run_bind, Hrun, run_bind.
  assert (Hhit : fst (TTLCache.getitem key_eqb (hashkey session url) (now w1) (cache w1))
                 = Some (length (coroutines w))).
  { rewrite Hnow, Hcache. eapply getitem_setitem; eauto using key_eqb_refl.
    lia. }
  destruct (await_fetch_hit session url (fun _ => later dt o) (S n) w1 Hhit Hco)
    as (Hr & Hq & _); [discriminate|].
  destruct (run (await_fetch session url) (fun _ => later dt o) (S n) w1)
    as [[n2 w2] r2].
  unfold result_of, world_of in *. simpl in *. subst r2. simpl. split; congruence.
Qed.

Lemma fetch_twice_second_await_raises_witness :
  result_of (run (fetch_twice 0 "https://example.org")
                 (fun _ => later 10 (HttpResponse 200 "OK" "hello")) 0 initial_world)
  = inl (RuntimeError "cannot reuse already awaited coroutine")
  /\ requests (world_of (run (fetch_twice 0 "https://example.org")
                             (fun _ => later 10 (HttpResponse 200 "OK" "hello"))
                             0 initial_world))
     = requests initial_world ++ ["https://example.org"].
Proof.
  apply (@fetch_twice_second_await_raises 0 "https://example.org"
           (HttpResponse 200 "OK" "hello") 10 0 initial_world).
  - reflexivity.
  - simpl. lia.
  - reflexivity.
Defined.

(** C2, as the claim states it, fails: a response with status 300 is not
    a success (not 2xx), and [fetch] returns its body, not the empty
    string. *)
Lemma fetch_returns_body_of_status_300 :
  result_of (run (await_fetch 0 "https://example.org")
                 (fun _ => alone (HttpResponse 300 "Multiple Choices" "see /nl or /en"))
                 0 initial_world)
  = inr "see /nl or /en"
  /\ result_of (run (await_fetch 0 "https://example.org")
                    (fun _ => alone (HttpResponse 300 "Multiple Choices" "see /nl or /en"))
                    0 initial_world)
     <> inr "".
Proof. split; [reflexivity | discriminate]. Qed.

(** C2, amended.  When the lookup misses the cache, so that [fetch] makes
    a new coroutine, awaiting it never raises, whatever the request comes
    to: a transport error and a status of 400 or above give the empty
    string, every other response (status below 400) gives its body. *)
Theorem fetch_on_miss_never_raises session url env n w :
  fst (TTLCache.getitem key_eqb (hashkey session url) (now w) (cache w)) = None ->
  result_of (run (await_fetch session url) env n w)
  = inr match arrives (env n) with
        | HttpResponse st _ b => if 400 <=? st then "" else b
        | TransportError _ => ""
        end.
Proof. intros Hmiss. apply (run_await_fetch_miss session url env n w Hmiss). Qed.

Lemma fetch_on_miss_never_raises_witness :
  result_of (run (await_fetch 0 "https://example.org")
                 (fun _ => alone (HttpResponse 404 "Not Found" "<h1>404</h1>"))
                 0 initial_world)
  = inr "".
Proof.
  apply (@fetch_on_miss_never_raises 0 "https://example.org"
           (fun _ => alone (HttpResponse 404 "Not Found" "<h1>404</h1>"))
           0 initial_world).
  reflexivity.
Defined.

(** C10.  When the fetch of a candidate page yields the empty string, the
    e-mail extractor (with the pattern of the script) returns the empty
    list, not a list with an error text. *)
Theorem extract_emails_nothing_from_empty_page session url env n w :
  result_of (run (await_fetch session url) env n w) = inr "" ->
  result_of (run (extract_emails_from_page session url EMAIL_REGEX) env n w)
  = inr [].
Proof.
  intros H. rewrite run_extract, H. reflexivity.
Qed.

Lemma extract_emails_nothing_from_empty_page_witness :
  result_of (run (extract_emails_from_page 0 "https://example.org/contact-us"
                                           EMAIL_REGEX)
                 (fun _ => alone (TransportError "Connection refused"))
                 0 initial_world)
  = inr [].
Proof.
  apply (@extract_emails_nothing_from_empty_page 0 "https://example.org/contact-us"
           (fun _ => alone (TransportError "Connection refused")) 0 initial_world).
  reflexivity.
Defined.

(* ===================================================================== *)
(** ** The link discoverer and the URL processor (C7, C8) *)
(* ===================================================================== *)

(** C7, as the claim states it, fails: the keyword is not lowercased.
    With the keyword "Contact" the link "/contact" is not found, although
    it matches when case is ignored on both sides. *)
Lemma get_contact_page_urls_misses_capitalised_keyword :
  result_of (run (get_contact_page_urls Demo.find_all_a_href 0
                                        "https://example.org" ["Contact"])
                 (fun _ => alone (HttpResponse 200 "OK" Demo.plain_home))
                 0 initial_world)
  = inr []
  /\ filter (any_keyword_in_ignoring_case ["Contact"])
            (Demo.hrefs Demo.plain_home)
     = ["/contact"].
Proof. split; reflexivity. Qed.

Lemma any_keyword_in_lowercase keywords href :
  (forall k, In k keywords -> Str.lower k = k) ->
  any_keyword_in keywords href = any_keyword_in_ignoring_case keywords href.
Proof.
  unfold any_keyword_in, any_keyword_in_ignoring_case.
  induction keywords as [|k ks IH]; simpl; intros H; [reflexivity|].
  rewrite (H k (or_introl eq_refl)), IH; auto.
Qed.

(** C7, amended.  The link discoverer returns the [href] values of the
    anchors, in document order and with repetitions, whose lowercased
    [href] contains one of the keywords as it is written; for keywords
    written in lower case this is the comparison without regard to case.
    When fetching or parsing raises, it returns the one-element list with
    the text of the error; it never raises. *)
Theorem get_contact_page_urls_filters parser session main_url keywords env n w :
  result_of (run (get_contact_page_urls parser session main_url keywords) env n w)
  = match result_of (run (await_fetch session main_url) env n w) with
    | inr html_content =>
        match parser html_content with
        | inr hrefs =>
            inr (filter (fun href =>
                           existsb (fun keyword =>
                                      Str.contains keyword (Str.lower href))
                                   keywords)
                        hrefs)
        | inl e => inr [str e]
        end
    | inl e => inr [str e]
    end
  /\ ((forall k, In k keywords -> Str.lower k = k) ->
      forall href,
        any_keyword_in keywords href
        = any_keyword_in_ignoring_case keywords href)
  /\ Always returns (get_contact_page_urls parser session main_url keywords).
Proof.
  split; [apply run_get_contact_page_urls|].
  split; [intros H href; apply any_keyword_in_lowercase; exact H|].
  apply get_contact_page_urls_returns.
Qed.

(** C8.  The URL processor returns the seed URL unchanged, with one list
    of matches for each contact candidate: as many lists as candidates,
    in the same places, each the result of the extractor on its
    candidate, the candidates taken one after the other. *)
Theorem process_kerk_url_aligned parser session kerk_url keywords regex env n w :
  exists contact_pages emails,
    result_of (run (get_contact_page_urls parser session kerk_url keywords) env n w)
    = inr contact_pages
    /\ result_of (run (process_kerk_url parser session kerk_url keywords regex)
                      env n w)
       = inr (kerk_url, emails)
    /\ length emails = length contact_pages
    /\ one_by_one
         (fun page => extract_emails_from_page session page regex) env
         (next_of (run (get_contact_page_urls parser session kerk_url keywords)
                       env n w))
         (world_of (run (get_contact_page_urls parser session kerk_url keywords)
                        env n w))
         contact_pages emails.
Proof.
  unfold process_kerk_url.
  change (contact_pages <- ?c ;; ?k) with (bind c (fun contact_pages => k)).
  rewrite run_bind.
  destruct (Always_run env n w
              (get_contact_page_urls_returns parser session kerk_url keywords))
    as (pages & Hpages).
  destruct (run (get_contact_page_urls parser session kerk_url keywords) env n w)
    as [[n1 w1] r1].
  unfold result_of in Hpages. simpl in Hpages. subst r1.
  destruct (@run_for_each _ _
              (fun page => extract_emails_from_page session page regex)
              (fun x env' n' w' =>
                 Always_run env' n' w'
                   (extract_emails_from_page_returns session x regex))
              pages env n1 w1)
    as (emails & Hemails & Hlen & Hone).
  exists pages, emails. rewrite run_bind.
  destruct (run (for_each (fun page => extract_emails_from_page session page regex)
                          pages) env n1 w1) as [[n2 w2] r2].
  unfold result_of, next_of, world_of in *. simpl in *. subst r2. simpl. auto.
Qed.

(* ===================================================================== *)
(** ** The batch runner and the seeds (C3, C9) *)
(* ===================================================================== *)

(** C3.  Whatever the network does, in whatever order the tasks start and
    complete, and whatever the parser does, [main] comes to an end and
    returns a dictionary whose keys are the seeds it was given: every
    seed is a key, once, and there is no other key. *)
Theorem main_one_entry_per_seed parser kerk_urls keywords regex env w :
  exists fuel w' d,
    (forall extra,
        main parser kerk_urls keywords regex env (fuel + extra) w
        = Some (w', inr d))
    /\ NoDup (dict_keys d)
    /\ forall s, In s (dict_keys d) <-> In s kerk_urls.
Proof.
  destruct (main_total parser kerk_urls keywords regex env w)
    as (fuel & w' & d & Hmain & Hnd & Hkeys & _).
  exists fuel, w', d. auto.
Qed.

Lemma valid_http_url_chars u : valid_http_url u -> all_chars uri_char u = true.
Proof. intros (scheme & c & rest & _ & _ & _ & H). exact H. Qed.

(** An ordinary address is a valid URL in this sense, and a text without
    a host is not. *)
Example valid_http_url_ordinary :
  valid_http_url "https://example.org/contact?lang=nl"
  /\ ~ valid_http_url "http:///".
Proof.
  split.
  - exists "https", "e"%char, "xample.org/contact?lang=nl".
    repeat split; auto.
  - intros (scheme & c & rest & [-> | ->] & Hu & Hc & _);
      simpl in Hu; inversion Hu; subst; discriminate Hc.
Qed.

(** C9, as the claim states it, fails: [is_url] keeps texts that are no
    valid URL.  "https://x y z" holds blanks and "http://<>" holds angle
    brackets; both are seeds when the directory lists them. *)
Lemma kerk_urls_keeps_invalid_urls :
  In "https://x y z" (kerk_urls [Kerk "https://x y z"; Kerk "http://<>"])
  /\ ~ valid_http_url "https://x y z"
  /\ In "http://<>" (kerk_urls [Kerk "https://x y z"; Kerk "http://<>"])
  /\ ~ valid_http_url "http://<>".
Proof.
  split; [simpl; auto|]. split.
  { intros H. apply valid_http_url_chars in H. discriminate H. }
  split; [simpl; auto|].
  intros H. apply valid_http_url_chars in H. discriminate H.
Qed.

(** C9, amended.  The seeds are exactly the websites of the directory
    that [is_url] accepts, and each of them begins with [http://] or
    [https://], goes on with a character that is neither white space nor
    one of [/$.?#], and then with one more character that is not a line
    feed.  The text "not a url" is not accepted: it is no seed, and no
    key of what [main] returns for the seeds. *)
Theorem kerk_urls_keeps_what_is_url_accepts pkn_kerken :
  (forall u, In u (kerk_urls pkn_kerken) <->
             exists k, In k pkn_kerken /\ website k = u /\ is_url u = true)
  /\ (forall u, In u (kerk_urls pkn_kerken) ->
                exists c1 c2 rest,
                  (u = "http://" ++ String c1 (String c2 rest)
                   \/ u = "https://" ++ String c1 (String c2 rest))%string
                  /\ Re.space c1 = false
                  /\ Str.one_of "/$.?#" c1 = false
                  /\ Str.code c2 <> 10)
  /\ is_url "not a url" = false
  /\ ~ In "not a url" (kerk_urls pkn_kerken)
  /\ (forall parser keywords regex env w,
        exists fuel w' d,
          (forall extra,
              main parser (kerk_urls pkn_kerken) keywords regex env
                   (fuel + extra) w
              = Some (w', inr d))
          /\ ~ In "not a url" (dict_keys d)).
Proof.
  assert (Hnot : ~ In "not a url" (kerk_urls pkn_kerken)).
  { intros H. apply kerk_urls_In in H. destruct H as (k & _ & _ & H).
    discriminate H. }
  split; [apply kerk_urls_In|].
  split.
  { intros u H. apply kerk_urls_In in H. destruct H as (k & _ & _ & H).
    apply is_url_shape in H. destruct H as (c1 & c2 & rest & Hu & H1 & H2).
    exists c1, c2, rest. split; [exact Hu|].
    unfold Re.host_start in H1. apply negb_true_iff in H1.
    apply orb_false_iff in H1. destruct H1 as [Hs Ho].
    unfold Re.dot in H2. apply negb_true_iff in H2. apply Nat.eqb_neq in H2.
    auto. }
  split; [reflexivity|].
  split; [exact Hnot|].
  intros parser keywords regex env w.
  destruct (main_total parser (kerk_urls pkn_kerken) keywords regex env w)
    as (fuel & w' & d & Hmain & _ & Hkeys & _).
  exists fuel, w', d. split; [exact Hmain|].
  intros H. apply Hnot. apply Hkeys. exact H.
Qed.

(* ===================================================================== *)
(** ** The table (C4, C5, C6) *)
(* ===================================================================== *)

Lemma df_In kerk_emails r :
  In r (df kerk_emails) ->
  In r (df_exploded kerk_emails)
  /\ exists s, email r = Text s /\ Re.search EMAIL_REGEX s = true.
Proof.
  unfold df, drop_duplicates. intros H.
  apply drop_duplicates_seen_In in H. destruct H as [H _].
  unfold df_validated in H. apply filter_In in H. destruct H as [Hin Hc].
  split; [exact Hin|].
  destruct (email r) as [| |s|l]; try discriminate. exists s. auto.
Qed.

Lemma DataFrame_from_has rs u e :
  In (u, e) rs -> forall i, exists j, In (MkRow j u e) (DataFrame_from i rs).
Proof.
  induction rs as [|[u' e'] rs IH]; simpl; intros H i; [contradiction|].
  destruct H as [H|H].
  - inversion H; subst. exists i. left. reflexivity.
  - destruct (IH H (S i)) as (j & Hj). exists j. right. exact Hj.
Qed.

Lemma df_exploded_has_NaN kerk_emails u values :
  In (u, values) kerk_emails -> In [] values ->
  exists i, In (MkRow i u NaN) (df_exploded kerk_emails).
Proof.
  intros Hd Hv.
  assert (Hrow : In (u, Items []) (rows kerk_emails)).
  { unfold rows. apply in_flat_map. exists (u, values). split; [exact Hd|].
    simpl. apply in_map_iff. exists []. split; [|exact Hv].
    destruct values; [contradiction|reflexivity]. }
  destruct (DataFrame_from_has _ _ _ Hrow 0) as (i & Hi).
  exists i. unfold df_exploded, explode. apply in_flat_map.
  exists (MkRow i u (Items [])). split; [exact Hi|]. left. reflexivity.
Qed.

(** C4, as the claim states it, fails: a seed without contact pages, and a
    seed whose only contact page gave no match, have no row at all in the
    final table, so no row with an absent e-mail either. *)
Lemma df_has_no_row_for_seed_without_emails :
  ~ (exists r, In r (df [("https://example.org", [])])
               /\ url r = "https://example.org"
               /\ (email r = PyNone \/ email r = NaN))
  /\ ~ (exists r, In r (df [("https://example.org", [[]])])
                  /\ url r = "https://example.org"
                  /\ (email r = PyNone \/ email r = NaN)).
Proof. split; intros (r & H & _); exact H. Qed.

(** C4, amended.  For a seed none of whose contact pages gave a string
    that passes the validation of line 147, the final table has no row:
    the table after [explode] has a row (url, NaN) for each of its pages
    without any match, the validation removes these rows and the rows of
    the strings that fail it, and no row of the final table has an absent
    e-mail. *)
Theorem df_drops_seeds_without_emails kerk_emails u :
  (forall values page s,
      In (u, values) kerk_emails -> In page values -> In s page ->
      Re.search EMAIL_REGEX s = false) ->
  (forall values, In (u, values) kerk_emails -> In [] values ->
                  exists i, In (MkRow i u NaN) (df_exploded kerk_emails))
  /\ (forall r, In r (df kerk_emails) -> url r <> u)
  /\ (forall r, In r (df kerk_emails) -> email r <> NaN /\ email r <> PyNone).
Proof.
  intros Hnone. split; [|split].
  - intros values Hd Hv. eapply df_exploded_has_NaN; eauto.
  - intros r Hr Hu. apply df_In in Hr. destruct Hr as [Hex (s & Hs & Hm)].
    apply df_exploded_In in Hex.
    destruct Hex as (values & value & Hd & Hv & [[_ Hnan]|(s' & Hin & Hs')]).
    + congruence.
    + rewrite Hu in Hd. rewrite Hs in Hs'. inversion Hs'; subst s'.
      rewrite (Hnone values value s Hd Hv Hin) in Hm. discriminate.
  - intros r Hr. apply df_In in Hr. destruct Hr as [_ (s & Hs & _)].
    rewrite Hs. split; discriminate.
Qed.

Lemma df_drops_seeds_without_emails_witness :
  (forall values,
      In ("https://example.org", values)
         [("https://example.org", [[]; ["cannot reuse already awaited coroutine"]]);
          ("https://example.com", [["a@b.cc"]])] ->
      In [] values ->
      exists i,
        In (MkRow i "https://example.org" NaN)
           (df_exploded
              [("https://example.org",
                [[]; ["cannot reuse already awaited coroutine"]]);
               ("https://example.com", [["a@b.cc"]])]))
  /\ (forall r,
         In r (df [("https://example.org",
                    [[]; ["cannot reuse already awaited coroutine"]]);
                   ("https://example.com", [["a@b.cc"]])]) ->
         url r <> "https://example.org")
  /\ (forall r,
         In r (df [("https://example.org",
                    [[]; ["cannot reuse already awaited coroutine"]]);
                   ("https://example.com", [["a@b.cc"]])]) ->
         email r <> NaN /\ email r <> PyNone).
Proof.
  apply (@df_drops_seeds_without_emails
           [("https://example.org",
             [[]; ["cannot reuse already awaited coroutine"]]);
            ("https://example.com", [["a@b.cc"]])]
           "https://example.org").
  intros values page s Hd Hp Hs. simpl in Hd.
  destruct Hd as [Hd|[Hd|[]]]; inversion Hd; subst.
  simpl in Hp. destruct Hp as [Hp|[Hp|[]]]; subst page; simpl in Hs.
  - contradiction.
  - destruct Hs as [Hs|[]]. subst s. reflexivity.
Defined.

(** C5.  Every row of the final table holds in its e-mail column a string
    in which the e-mail pattern finds a match (the test of line 147); a
    string in which it finds none, such as the text of an error, is in no
    row.  When the table is made from what [main] returned, the string is
    moreover matched by the pattern as a whole. *)
Theorem df_emails_pass_validation kerk_emails r :
  In r (df kerk_emails) ->
  (exists s, email r = Text s /\ Re.search EMAIL_REGEX s = true)
  /\ (forall s, Re.search EMAIL_REGEX s = false -> email r <> Text s)
  /\ (forall parser kerk_urls keywords env fuel w w',
         main parser kerk_urls keywords EMAIL_REGEX env fuel w
         = Some (w', inr kerk_emails) ->
         exists s, email r = Text s /\ whole_match EMAIL_REGEX s).
Proof.
  intros H. apply df_In in H. destruct H as [Hex (s & Hs & Hm)].
  split; [exists s; auto|]. split.
  - intros s' Hs' Heq. rewrite Hs in Heq. inversion Heq; subst. congruence.
  - intros parser kerk_urls keywords env fuel w w' Hmain.
    apply main_result in Hmain.
    destruct Hmain as (d & Hd & _ & _ & Hval). inversion Hd; subst d.
    exists s. split; [exact Hs|].
    apply df_exploded_In in Hex.
    destruct Hex as (values & value & Hin & Hv & [[_ Hnan]|(s' & Hs' & Heq)]);
      [congruence|].
    rewrite Hs in Heq. inversion Heq; subst s'.
    unfold dict_values_ok in Hval. rewrite Forall_forall in Hval.
    pose proof (Hval _ Hin) as Hpages. simpl in Hpages.
    rewrite Forall_forall in Hpages. pose proof (Hpages _ Hv) as Hpage.
    rewrite Forall_forall in Hpage.
    destruct (Hpage _ Hs') as [Hwhole|[Herr|Herr]]; [exact Hwhole| |];
      subst s; discriminate Hm.
Qed.

Lemma df_emails_pass_validation_witness :
  (exists s, email (MkRow 0 "https://example.org" (Text "info@example.org")) = Text s
             /\ Re.search EMAIL_REGEX s = true)
  /\ (forall s, Re.search EMAIL_REGEX s = false ->
                email (MkRow 0 "https://example.org" (Text "info@example.org"))
                <> Text s)
  /\ (forall parser kerk_urls keywords env fuel w w',
         main parser kerk_urls keywords EMAIL_REGEX env fuel w
         = Some (w', inr [("https://example.org",
                           [["info@example.org";
                             "cannot reuse already awaited coroutine"]])]) ->
         exists s,
           email (MkRow 0 "https://example.org" (Text "info@example.org")) = Text s
           /\ whole_match EMAIL_REGEX s).
Proof.
  apply (@df_emails_pass_validation
           [("https://example.org",
             [["info@example.org"; "cannot reuse already awaited coroutine"]])]
           (MkRow 0 "https://example.org" (Text "info@example.org"))).
  simpl. left. reflexivity.
Defined.

(** C6.  In the final table no e-mail occurs twice; every row of it is
    the first row with its e-mail in the validated table; and every
    e-mail of the validated table is still there.  So of the rows with
    the same e-mail, whether of one seed or of several, exactly the first
    one stays. *)
Theorem df_keeps_first_row_of_each_email kerk_emails :
  NoDup (map email (df kerk_emails))
  /\ (forall r, In r (df kerk_emails) ->
                exists before rest,
                  df_validated kerk_emails = before ++ r :: rest
                  /\ ~ In (email r) (map email before))
  /\ (forall r, In r (df_validated kerk_emails) ->
                In (email r) (map email (df kerk_emails))).
Proof.
  unfold df, drop_duplicates. split; [apply drop_duplicates_seen_NoDup|]. split.
  - intros r Hr. apply drop_duplicates_seen_first in Hr. exact Hr.
  - intros r Hr.
    destruct (drop_duplicates_seen_covers [] _ _ Hr) as [[]|H]. exact H.
Qed.

(* ===================================================================== *)
(** ** The scenario of one seed with one contact page *)
(* ===================================================================== *)

Example example_org_result :
  option_map snd
    (main Demo.find_all_a_href ["https://example.org"] contact_page_keywords
          EMAIL_REGEX Demo.web 3 initial_world)
  = Some (inr [("https://example.org", [["info@example.org"]])]).
Proof. reflexivity. Qed.

Example example_org_table :
  df [("https://example.org", [["info@example.org"]])]
  = [MkRow 0 "https://example.org" (Text "info@example.org")].
Proof. reflexivity. Qed.

(** The same seed twice in the list: the second task finds the coroutine
    of the first in the cache while that one is waiting, takes the text
    of the error for a contact page, and its result replaces the e-mail
    that the first task found. *)
Example example_org_twice :
  option_map snd
    (main Demo.find_all_a_href ["https://example.org"; "https://example.org"]
          contact_page_keywords EMAIL_REGEX Demo.web_twice 5 initial_world)
  = Some (inr [("https://example.org", [[]])]).
Proof. reflexivity. Qed.

(* ===================================================================== *)
(** ** Further properties of the seed test and of the e-mail pattern *)
(* ===================================================================== *)

(** X1.  [is_url] accepts exactly the texts that begin with [http://] or
    [https://], go on with a character that is neither white space nor
    one of [/$.?#], and then with one more character that is not a line
    feed; whatever follows is not looked at. *)
Theorem is_url_accepts_exactly u :
  is_url u = true <->
  exists c1 c2 rest,
    (u = "http://" ++ String c1 (String c2 rest)
     \/ u = "https://" ++ String c1 (String c2 rest))%string
    /\ Re.space c1 = false
    /\ Str.one_of "/$.?#" c1 = false
    /\ Str.code c2 <> 10.
Proof.
  rewrite is_url_shape. split.
  - intros (c1 & c2 & rest & Hu & H1 & H2).
    exists c1, c2, rest. split; [exact Hu|].
    unfold Re.host_start in H1. apply negb_true_iff in H1.
    apply orb_false_iff in H1. destruct H1 as [Hs Ho].
    unfold Re.dot in H2. apply negb_true_iff in H2. apply Nat.eqb_neq in H2.
    auto.
  - intros (c1 & c2 & rest & Hu & Hs & Ho & H2).
    exists c1, c2, rest. split; [exact Hu|]. split.
    + unfold Re.host_start. rewrite Hs, Ho. reflexivity.
    + unfold Re.dot. apply negb_true_iff. apply Nat.eqb_neq. exact H2.
Qed.

Lemma append_assoc (a b c : string) : ((a ++ b) ++ c = a ++ (b ++ c))%string.
Proof. induction a; simpl; [reflexivity|]. rewrite IHa. reflexivity. Qed.

(** X2.  [is_url] tests the beginning of the text only: a text that it
    accepts is still accepted with anything put after it (white space,
    further words). *)
Theorem is_url_ignores_what_follows u rest :
  is_url u = true -> is_url (u ++ rest)%string = true.
Proof.
  intros H. apply is_url_shape in H. apply is_url_shape.
  destruct H as (c1 & c2 & r & Hu & H1 & H2).
  exists c1, c2, (r ++ rest)%string. split; [|auto].
  destruct Hu as [-> | ->]; [left|right]; reflexivity.
Qed.

Lemma is_url_ignores_what_follows_witness :
  is_url ("https://example.org" ++ " and more")%string = true.
Proof.
  apply (@is_url_ignores_what_follows "https://example.org" " and more").
  reflexivity.
Defined.

(** What a greedy repetition matched is a run of characters of the class,
    of a length that the quantifier allows, followed by what the rest of
    the pattern matched after that run. *)
Lemma greedy_parts cl k : forall s lo hi m,
  Re.greedy cl k lo hi s = Some m ->
  exists m1 m2 rest,
    m = (m1 ++ m2)%string /\ s = (m1 ++ rest)%string /\ k rest = Some m2
    /\ all_chars cl m1 = true /\ lo <= String.length m1
    /\ within hi (String.length m1).
Proof.
  assert (Hstop : forall s lo hi m,
             (if lo =? 0 then k s else None) = Some m ->
             exists m1 m2 rest,
               m = (m1 ++ m2)%string /\ s = (m1 ++ rest)%string /\ k rest = Some m2
               /\ all_chars cl m1 = true /\ lo <= String.length m1
               /\ within hi (String.length m1)).
  { intros s lo hi m H. destruct (Nat.eqb_spec lo 0) as [->|]; [|discriminate].
    exists EmptyString, m, s. simpl. repeat split; auto.
    destruct hi; simpl; lia. }
  induction s as [|c s IH]; intros lo hi m; simpl.
  - apply Hstop.
  - destruct (cl c && Re.room hi) eqn:Ec; [|apply Hstop].
    destruct (Re.greedy cl k (pred lo) (Re.less hi) s) as [m'|] eqn:E; [|apply Hstop].
    intros H. inversion H; subst m. clear H.
    destruct (IH _ _ _ E) as (m1 & m2 & rest & -> & -> & Hk & Hall & Hlo & Hhi).
    apply andb_true_iff in Ec. destruct Ec as [Hc Hroom].
    exists (String c m1), m2, rest. simpl. rewrite Hc, Hall.
    repeat split; auto; [lia|].
    destruct hi as [[|h]|]; simpl in *; try discriminate; auto. lia.
Qed.

Lemma one_char cl m :
  all_chars cl m = true -> 1 <= String.length m -> String.length m <= 1 ->
  exists c, m = String c EmptyString /\ cl c = true.
Proof.
  destruct m as [|c [|c' m]]; simpl; intros Hall H1 H2; try lia.
  exists c. rewrite andb_true_r in Hall. auto.
Qed.

Lemma whole_match_email_shape s : whole_match EMAIL_REGEX s -> email_shape s.
Proof.
  unfold whole_match, EMAIL_REGEX. cbn [Re.match_here Re.cls Re.lo Re.hi Re.plus Re.lit Re.one Re.at_least].
  intros H.
  apply greedy_parts in H.
  destruct H as (local & m2 & r1 & Hs & _ & H & Hl & Hll & _).
  apply greedy_parts in H.
  destruct H as (at_ & m3 & r2 & -> & _ & H & Ha & Hal & Hah).
  destruct (one_char _ _ Ha Hal Hah) as (c & -> & Hc). apply is_char_eq in Hc. subst c.
  apply greedy_parts in H.
  destruct H as (domain & m4 & r3 & -> & _ & H & Hd & Hdl & _).
  apply greedy_parts in H.
  destruct H as (dot_ & m5 & r4 & -> & _ & H & Hp & Hpl & Hph).
  destruct (one_char _ _ Hp Hpl Hph) as (c & -> & Hc). apply is_char_eq in Hc. subst c.
  apply greedy_parts in H.
  destruct H as (tld & m6 & r5 & -> & _ & H & Ht & Htl & _).
  simpl in H. inversion H; subst m6.
  exists local, domain, tld. repeat split; auto.
  rewrite Hs. f_equal. simpl. f_equal. f_equal. simpl. f_equal.
  clear. induction tld; simpl; [reflexivity|]. rewrite IHtld. reflexivity.
Qed.

(** X3.  Every string that the extractor returns with the pattern of the
    script, whatever the network does meanwhile, is an address of the
    form local@domain.tld (the classes of the pattern, the last part two
    letters or more), or one of the two error texts of awaiting a
    coroutine again; and the extractor returns, it does not raise. *)
Theorem extract_emails_from_page_gives_addresses session url env n w :
  exists emails,
    result_of (run (extract_emails_from_page session url EMAIL_REGEX) env n w)
    = inr emails
    /\ forall s, In s emails -> email_shape s \/ await_error s.
Proof.
  destruct (Always_run env n w
              (extract_emails_from_page_strings session url EMAIL_REGEX))
    as (l & Hl & Hall).
  exists l. split; [exact Hl|].
  intros s Hs. rewrite Forall_forall in Hall.
  destruct (Hall s Hs) as [Hw|He]; [left; apply whole_match_email_shape; exact Hw|].
  right. exact He.
Qed.

(* ===================================================================== *)
(** ** Further properties of the fetcher and its cache *)
(* ===================================================================== *)

Section MoreCacheFacts.

Variables K V : Type.
Variable eqb : K -> K -> bool.
Hypothesis eqb_refl : forall k, eqb k k = true.

Implicit Types (es : list (TTLCache.entry K V)) (e : TTLCache.entry K V)
         (c : TTLCache.t K V).

Lemma absent_app k es es' :
  absent eqb k es -> absent eqb k es' -> absent eqb k (es ++ es').
Proof.
  intros H H' e He. apply in_app_or in He. destruct He; auto.
Qed.

Lemma absent_find_none k es :
  absent eqb k es -> find (TTLCache.has_key eqb k) es = None.
Proof.
  intros H. induction es as [|x es IH]; simpl; [reflexivity|].
  rewrite (H x (or_introl eq_refl)). apply IH. intros y Hy. apply H. right. exact Hy.
Qed.

(** After a miss, storing the new value leaves it as the last entry, the
    only one with its key, with a full time to live. *)
Lemma setitem_after_miss k (v : V) time c c' :
  TTLCache.getitem eqb k time c = (None, c') ->
  TTLCache.maxsize c <> 0 ->
  exists es,
    TTLCache.entries (TTLCache.setitem eqb k v time c')
    = es ++ [TTLCache.Entry k v (time + TTLCache.ttl c)%N]
    /\ absent eqb k es.
Proof.
  intros Hget Hmax.
  assert (Hc' : TTLCache.maxsize c' = TTLCache.maxsize c
                /\ TTLCache.ttl c' = TTLCache.ttl c
                /\ absent eqb k (filter (TTLCache.live time) (TTLCache.entries c'))).
  { unfold TTLCache.getitem in Hget.
    destruct (find (TTLCache.has_key eqb k) (TTLCache.entries c)) as [e|] eqn:Ef.
    - destruct (TTLCache.live time e) eqn:El; [discriminate|].
      inversion Hget; subst c'; clear Hget. simpl. repeat split.
      rewrite filter_app. simpl. rewrite El. rewrite app_nil_r.
      apply absent_filter, absent_without.
    - inversion Hget; subst c'. repeat split. apply absent_filter, absent_find. exact Ef. }
  destruct Hc' as (Hm & Ht & Ha).
  unfold TTLCache.setitem. simpl.
  destruct (TTLCache.maxsize c' =? 0) eqn:E0.
  { apply Nat.eqb_eq in E0. congruence. }
  rewrite (absent_existsb Ha). simpl. rewrite Ht.
  eexists. split; [reflexivity|]. apply absent_skipn. exact Ha.
Qed.

(** Once the time to live is over, the stored value is not served. *)
Lemma getitem_setitem_expired k (v : V) time time' c c' :
  TTLCache.getitem eqb k time c = (None, c') ->
  TTLCache.maxsize c <> 0 ->
  (time + TTLCache.ttl c <= time')%N ->
  fst (TTLCache.getitem eqb k time' (TTLCache.setitem eqb k v time c')) = None.
Proof.
  intros Hget Hmax Hold.
  destruct (@setitem_after_miss k v time c c' Hget Hmax) as (es & Hes & Ha).
  unfold TTLCache.getitem. rewrite Hes.
  rewrite (@find_last K V eqb k es _ Ha); [|unfold TTLCache.has_key; simpl; apply eqb_refl].
  unfold TTLCache.live. simpl.
  destruct (N.ltb_spec time' (time + TTLCache.ttl c)); [lia|reflexivity].
Qed.

(** A lookup moves entries about but adds none. *)
Lemma getitem_absent k k' time c :
  absent eqb k' (TTLCache.entries c) ->
  absent eqb k' (TTLCache.entries (snd (TTLCache.getitem eqb k time c))).
Proof.
  intros Ha. unfold TTLCache.getitem.
  destruct (find (TTLCache.has_key eqb k) (TTLCache.entries c)) as [e|] eqn:Ef;
    [|exact Ha].
  assert (He : absent eqb k' (TTLCache.without eqb k (TTLCache.entries c) ++ [e])).
  { apply absent_app; [apply absent_filter; exact Ha|].
    intros x [<-|[]]. apply Ha. apply (find_some _ _ Ef). }
  destruct (TTLCache.live time e); exact He.
Qed.

(** Storing under the key [k] gives no entry to another key [k']. *)
Lemma setitem_absent k k' (v : V) time c :
  eqb k' k = false ->
  absent eqb k' (TTLCache.entries c) ->
  absent eqb k' (TTLCache.entries (TTLCache.setitem eqb k v time c)).
Proof.
  intros Hne Ha. unfold TTLCache.setitem. simpl.
  assert (H1 : absent eqb k' (filter (TTLCache.live time) (TTLCache.entries c)))
    by (apply absent_filter; exact Ha).
  destruct (TTLCache.maxsize c =? 0); [exact H1|].
  assert (Hnew : forall t, absent eqb k' [TTLCache.Entry k v t]).
  { intros t x [<-|[]]. exact Hne. }
  destruct (existsb (TTLCache.has_key eqb k) _); simpl; apply absent_app; auto.
  - apply absent_filter. exact H1.
  - apply absent_skipn. exact H1.
Qed.

Lemma without_shorter k es e :
  find (TTLCache.has_key eqb k) es = Some e ->
  S (length (TTLCache.without eqb k es)) <= length es.
Proof.
  induction es as [|x es IH]; simpl; [discriminate|].
  unfold TTLCache.without in *. simpl.
  destruct (TTLCache.has_key eqb k x) eqn:E; simpl.
  - intros _. pose proof (filter_length_le (fun e0 => negb (TTLCache.has_key eqb k e0)) es).
    lia.
  - intros H. apply IH in H. lia.
Qed.

Lemma getitem_size k time c :
  TTLCache.maxsize (snd (TTLCache.getitem eqb k time c)) = TTLCache.maxsize c
  /\ length (TTLCache.entries (snd (TTLCache.getitem eqb k time c)))
     <= length (TTLCache.entries c).
Proof.
  unfold TTLCache.getitem.
  destruct (find (TTLCache.has_key eqb k) (TTLCache.entries c)) as [e|] eqn:Ef;
    [|simpl; auto].
  pose proof (@without_shorter k _ e Ef) as Hlen.
  destruct (TTLCache.live time e); simpl; rewrite length_app; simpl; split; auto; lia.
Qed.

Lemma setitem_size k (v : V) time c :
  length (TTLCache.entries c) <= TTLCache.maxsize c ->
  TTLCache.maxsize (TTLCache.setitem eqb k v time c) = TTLCache.maxsize c
  /\ length (TTLCache.entries (TTLCache.setitem eqb k v time c))
     <= TTLCache.maxsize c.
Proof.
  intros Hle. unfold TTLCache.setitem. simpl.
  pose proof (filter_length_le (TTLCache.live time) (TTLCache.entries c)) as Hf.
  destruct (Nat.eqb_spec (TTLCache.maxsize c) 0) as [E0|E0]; simpl; [split; auto; lia|].
  destruct (existsb (TTLCache.has_key eqb k) _) eqn:Ex; simpl; rewrite length_app; simpl.
  - split; auto.
    destruct (find (TTLCache.has_key eqb k) (filter (TTLCache.live time) (TTLCache.entries c)))
      as [e|] eqn:Ef.
    + pose proof (@without_shorter k _ e Ef). lia.
    + pose proof (@absent_existsb K V eqb k _ (@absent_find K V eqb k _ Ef)). congruence.
  - split; auto. rewrite length_skipn.
    destruct (TTLCache.maxsize c) as [|m]; [congruence|]. lia.
Qed.

End MoreCacheFacts.

Lemma key_eqb_false s1 u1 s2 u2 :
  s1 <> s2 \/ u1 <> u2 -> key_eqb (hashkey s2 u2) (hashkey s1 u1) = false.
Proof.
  unfold key_eqb, hashkey. simpl. intros [H|H].
  - destruct (Nat.eqb_spec s2 s1); [congruence|reflexivity].
  - destruct (String.eqb_spec u2 u1); [congruence|]. apply andb_false_r.
Qed.

(** X4.  The time to live works: when the first call of [fetch] missed
    the cache and the second call for the same URL comes after the time
    to live is over, the second call misses again, sends a request of
    its own and returns the text of its response. *)
Theorem fetch_again_after_ttl session url o dt n w :
  fst (TTLCache.getitem key_eqb (hashkey session url) (now w) (cache w)) = None ->
  TTLCache.maxsize (cache w) <> 0 ->
  (TTLCache.ttl (cache w) <= dt)%N ->
  result_of (run (fetch_twice session url) (fun _ => later dt o) n w)
  = inr (text_of o, text_of o)
  /\ requests (world_of (run (fetch_twice session url) (fun _ => later dt o) n w))
     = requests w ++ [url; url].
Proof.
  intros Hmiss Hmax Hdt. unfold fetch_twice.
  change (first <- await_fetch session url ;; ?k)
    with (bind (await_fetch session url) (fun first => k)).
  destruct (TTLCache.getitem key_eqb (hashkey session url) (now w) (cache w))
    as [hit c'] eqn:Hget.
  simpl in Hmiss. subst hit.
  destruct (await_fetch_miss_later session url o dt n w Hget)
    as (w1 & Hrun & Hnow & Hcache & _ & Hreq).
  rewrite run_bind, Hrun, run_bind.
  assert (Hmiss1 : fst (TTLCache.getitem key_eqb (hashkey session url)
                                         (now w1) (cache w1)) = None).
  { rewrite Hnow, Hcache.
    eapply getitem_setitem_expired; eauto using key_eqb_refl. lia. }
  destruct (TTLCache.getitem key_eqb (hashkey session url) (now w1) (cache w1))
    as [hit1 c1] eqn:Hget1.
  simpl in Hmiss1. subst hit1.
  destruct (await_fetch_miss_later session url o dt (S n) w1 Hget1)
    as (w2 & Hrun2 & _ & _ & _ & Hreq2).
  rewrite Hrun2. unfold result_of, world_of. simpl. split; [reflexivity|].
  rewrite Hreq2, Hreq, <- app_assoc. reflexivity.
Qed.

Lemma fetch_again_after_ttl_witness :
  result_of (run (fetch_twice 0 "https://example.org")
                 (fun _ => later 300 (HttpResponse 200 "OK" "hello")) 0 initial_world)
  = inr (text_of (HttpResponse 200 "OK" "hello"),
         text_of (HttpResponse 200 "OK" "hello"))
  /\ requests (world_of (run (fetch_twice 0 "https://example.org")
                             (fun _ => later 300 (HttpResponse 200 "OK" "hello"))
                             0 initial_world))
     = requests initial_world ++ ["https://example.org"; "https://example.org"].
Proof.
  apply (@fetch_again_after_ttl 0 "https://example.org"
           (HttpResponse 200 "OK" "hello") 300 0 initial_world).
  - reflexivity.
  - simpl. lia.
  - simpl. lia.
Defined.

(** X5.  The cache tells sessions and URLs apart: after a first call of
    [fetch] that missed, a call with another session or another URL,
    for which the cache had no entry, is a miss too; it sends its own
    request and returns the text of its response. *)
Theorem fetch_other_key_not_shared session1 url1 session2 url2 o dt n w :
  session1 <> session2 \/ url1 <> url2 ->
  fst (TTLCache.getitem key_eqb (hashkey session1 url1) (now w) (cache w)) = None ->
  absent key_eqb (hashkey session2 url2) (TTLCache.entries (cache w)) ->
  result_of (run (fetch_two session1 url1 session2 url2) (fun _ => later dt o) n w)
  = inr (text_of o, text_of o)
  /\ requests (world_of (run (fetch_two session1 url1 session2 url2)
                             (fun _ => later dt o) n w))
     = requests w ++ [url1; url2].
Proof.
  intros Hne Hmiss Habs. unfold fetch_two.
  change (first <- await_fetch session1 url1 ;; ?k)
    with (bind (await_fetch session1 url1) (fun first => k)).
  destruct (TTLCache.getitem key_eqb (hashkey session1 url1) (now w) (cache w))
    as [hit c'] eqn:Hget.
  simpl in Hmiss. subst hit.
  destruct (await_fetch_miss_later session1 url1 o dt n w Hget)
    as (w1 & Hrun & Hnow & Hcache & _ & Hreq).
  rewrite run_bind, Hrun, run_bind.
  assert (Habs1 : absent key_eqb (hashkey session2 url2) (TTLCache.entries (cache w1))).
  { rewrite Hcache. apply setitem_absent; [apply key_eqb_false; exact Hne|].
    replace c' with (snd (TTLCache.getitem key_eqb (hashkey session1 url1)
                                           (now w) (cache w)))
      by (rewrite Hget; reflexivity).
    apply getitem_absent. exact Habs. }
  assert (Hget1 : TTLCache.getitem key_eqb (hashkey session2 url2) (now w1) (cache w1)
                  = (None, cache w1)).
  { unfold TTLCache.getitem. rewrite (absent_find_none Habs1). reflexivity. }
  destruct (await_fetch_miss_later session2 url2 o dt (S n) w1 Hget1)
    as (w2 & Hrun2 & _ & _ & _ & Hreq2).
  rewrite Hrun2. unfold result_of, world_of. simpl. split; [reflexivity|].
  rewrite Hreq2, Hreq, <- app_assoc. reflexivity.
Qed.

Lemma fetch_other_key_not_shared_witness :
  result_of (run (fetch_two 0 "https://example.org" 1 "https://example.org")
                 (fun _ => later 1 (HttpResponse 200 "OK" "hello")) 0 initial_world)
  = inr (text_of (HttpResponse 200 "OK" "hello"),
         text_of (HttpResponse 200 "OK" "hello"))
  /\ requests (world_of (run (fetch_two 0 "https://example.org"
                                        1 "https://example.org")
                             (fun _ => later 1 (HttpResponse 200 "OK" "hello"))
                             0 initial_world))
     = requests initial_world ++ ["https://example.org"; "https://example.org"].
Proof.
  apply (@fetch_other_key_not_shared 0 "https://example.org" 1 "https://example.org"
           (HttpResponse 200 "OK" "hello") 1 0 initial_world).
  - left. lia.
  - reflexivity.
  - intros e H. simpl in H. contradiction.
Defined.

(** X6.  The bound on the size of the cache holds: a call of [fetch] in a
    state whose cache has at most [maxsize] entries leaves a cache with
    the same [maxsize] and at most that many entries. *)
Theorem fetch_keeps_cache_within_maxsize session url env n w :
  length (TTLCache.entries (cache w)) <= TTLCache.maxsize (cache w) ->
  TTLCache.maxsize (cache (world_of (run (fetch session url) env n w)))
  = TTLCache.maxsize (cache w)
  /\ length (TTLCache.entries (cache (world_of (run (fetch session url) env n w))))
     <= TTLCache.maxsize (cache w).
Proof.
  intros Hle. unfold fetch. simpl.
  pose proof (getitem_size key_eqb (hashkey session url) (now w) (cache w)) as [Hm Hl].
  destruct (TTLCache.getitem key_eqb (hashkey session url) (now w) (cache w))
    as [[v|] c']; simpl in *.
  - unfold world_of. simpl. split; [exact Hm|lia].
  - unfold world_of. simpl. rewrite <- Hm. apply setitem_size. lia.
Qed.

Lemma fetch_keeps_cache_within_maxsize_witness :
  TTLCache.maxsize (cache (world_of (run (fetch 0 "https://example.org")
                                         (fun _ => alone (TransportError ""))
                                         0 initial_world)))
  = TTLCache.maxsize (cache initial_world)
  /\ length (TTLCache.entries
               (cache (world_of (run (fetch 0 "https://example.org")
                                     (fun _ => alone (TransportError ""))
                                     0 initial_world))))
     <= TTLCache.maxsize (cache initial_world).
Proof.
  apply (@fetch_keeps_cache_within_maxsize 0 "https://example.org"
           (fun _ => alone (TransportError "")) 0 initial_world).
  simpl. lia.
Defined.

(** X7.  A call of [fetch] that misses the cache sends exactly one
    request, for its URL, and writes to the log exactly when the request
    failed: one record with the URL and the error, for a transport error
    and for a status of 400 or above, and nothing for another response. *)
Theorem fetch_on_miss_requests_and_log session url o n w :
  fst (TTLCache.getitem key_eqb (hashkey session url) (now w) (cache w)) = None ->
  requests (world_of (run (await_fetch session url) (fun _ => alone o) n w))
  = requests w ++ [url]
  /\ log (world_of (run (await_fetch session url) (fun _ => alone o) n w))
     = log w ++ fetch_log url o.
Proof.
  intros Hmiss. unfold await_fetch, fetch. simpl.
  destruct (TTLCache.getitem key_eqb (hashkey session url) (now w) (cache w))
    as [hit c'].
  simpl in Hmiss. subst hit. simpl.
  rewrite nth_error_snoc. simpl.
  destruct o as [st rs b|msg]; simpl;
    [unfold raise_for_status; simpl; destruct (400 <=? st); simpl|];
    unfold world_of; simpl; rewrite ?app_nil_r; auto.
Qed.

Lemma fetch_on_miss_requests_and_log_witness :
  requests (world_of (run (await_fetch 0 "https://example.org")
                          (fun _ => alone (HttpResponse 404 "Not Found" "gone"))
                          0 initial_world))
  = requests initial_world ++ ["https://example.org"]
  /\ log (world_of (run (await_fetch 0 "https://example.org")
                        (fun _ => alone (HttpResponse 404 "Not Found" "gone"))
                        0 initial_world))
     = log initial_world
       ++ fetch_log "https://example.org" (HttpResponse 404 "Not Found" "gone").
Proof.
  apply (@fetch_on_miss_requests_and_log 0 "https://example.org"
           (HttpResponse 404 "Not Found" "gone") 0 initial_world).
  reflexivity.
Defined.

(* ===================================================================== *)
(** ** Further properties of the link discoverer and the URL processor *)
(* ===================================================================== *)

(** The text of the error of awaiting a coroutine object in the state
    [st] again. *)
Lemma await_fetch_hit_world session url env n w v s u st :
  fst (TTLCache.getitem key_eqb (hashkey session url) (now w) (cache w)) = Some v ->
  nth_error (coroutines w) v = Some (Coroutine s u st) ->
  st <> CORO_CREATED ->
  exists m,
    await_error m
    /\ result_of (run (await_fetch session url) env n w) = inl (RuntimeError m)
    /\ next_of (run (await_fetch session url) env n w) = n
    /\ requests (world_of (run (await_fetch session url) env n w)) = requests w
    /\ log (world_of (run (await_fetch session url) env n w)) = log w.
Proof.
  intros Hhit Hnth Hst. unfold await_fetch, fetch. simpl.
  destruct (TTLCache.getitem key_eqb (hashkey session url) (now w) (cache w))
    as [hit c'].
  simpl in Hhit. subst hit. simpl. rewrite Hnth.
  destruct st; [congruence| |]; eexists; (split; [|repeat split]).
  - left. reflexivity.
  - right. reflexivity.
Qed.

(** X8.  When the home page of a seed is already in the cache (its
    coroutine object waiting or finished), the link discoverer sends no
    request and returns as the only candidate the text of the error of
    awaiting that object again; a text that is no URL is then handed
    on as a contact page. *)
Theorem get_contact_page_urls_on_cache_hit
        parser session main_url keywords env n w v s u st :
  fst (TTLCache.getitem key_eqb (hashkey session main_url) (now w) (cache w))
  = Some v ->
  nth_error (coroutines w) v = Some (Coroutine s u st) ->
  st <> CORO_CREATED ->
  exists m,
    await_error m
    /\ result_of (run (get_contact_page_urls parser session main_url keywords)
                      env n w)
       = inr [m]
    /\ is_url m = false.
Proof.
  intros Hhit Hnth Hst.
  destruct (await_fetch_hit_world session main_url env n w Hhit Hnth Hst)
    as (m & Hm & Hr & _).
  exists m. split; [exact Hm|]. split.
  - rewrite run_get_contact_page_urls, Hr. reflexivity.
  - destruct Hm as [-> | ->]; reflexivity.
Qed.

Lemma get_contact_page_urls_on_cache_hit_witness :
  exists m,
    await_error m
    /\ result_of
         (run (get_contact_page_urls Demo.find_all_a_href 0 "https://example.org"
                                     contact_page_keywords)
              (fun _ => alone (TransportError ""))
              0
              (MkWorld 5
                 (TTLCache.Make 1000 300
                    [TTLCache.Entry (0, "https://example.org") 0 300%N])
                 [Coroutine 0 "https://example.org" CORO_SUSPENDED] 1
                 ["https://example.org"] []))
       = inr [m]
    /\ is_url m = false.
Proof.
  apply (@get_contact_page_urls_on_cache_hit Demo.find_all_a_href 0
           "https://example.org" contact_page_keywords
           (fun _ => alone (TransportError "")) 0
           (MkWorld 5
              (TTLCache.Make 1000 300
                 [TTLCache.Entry (0, "https://example.org") 0 300%N])
              [Coroutine 0 "https://example.org" CORO_SUSPENDED] 1
              ["https://example.org"] [])
           0 0 "https://example.org" CORO_SUSPENDED).
  - reflexivity.
  - reflexivity.
  - discriminate.
Defined.

(** X9.  When a candidate page is already in the cache (its coroutine
    object waiting or finished), the extractor sends no request and
    returns the one-element list with the text of the error of awaiting
    that object again, whatever the pattern. *)
Theorem extract_emails_from_page_on_cache_hit
        session url regex env n w v s u st :
  fst (TTLCache.getitem key_eqb (hashkey session url) (now w) (cache w)) = Some v ->
  nth_error (coroutines w) v = Some (Coroutine s u st) ->
  st <> CORO_CREATED ->
  exists m,
    await_error m
    /\ result_of (run (extract_emails_from_page session url regex) env n w)
       = inr [m]
    /\ requests (world_of (run (extract_emails_from_page session url regex) env n w))
       = requests w.
Proof.
  intros Hhit Hnth Hst.
  unfold extract_emails_from_page, fetch. simpl.
  destruct (TTLCache.getitem key_eqb (hashkey session url) (now w) (cache w))
    as [hit c'].
  simpl in Hhit. subst hit. simpl. rewrite Hnth.
  destruct st; [congruence| |]; eexists; (split; [|split; reflexivity]).
  - left. reflexivity.
  - right. reflexivity.
Qed.

Lemma extract_emails_from_page_on_cache_hit_witness :
  exists m,
    await_error m
    /\ result_of
         (run (extract_emails_from_page 0 "https://example.org" EMAIL_REGEX)
              (fun _ => alone (TransportError ""))
              0
              (MkWorld 5
                 (TTLCache.Make 1000 300
                    [TTLCache.Entry (0, "https://example.org") 0 300%N])
                 [Coroutine 0 "https://example.org" CORO_CLOSED] 1
                 ["https://example.org"] []))
       = inr [m]
    /\ requests
         (world_of
            (run (extract_emails_from_page 0 "https://example.org" EMAIL_REGEX)
                 (fun _ => alone (TransportError ""))
                 0
                 (MkWorld 5
                    (TTLCache.Make 1000 300
                       [TTLCache.Entry (0, "https://example.org") 0 300%N])
                    [Coroutine 0 "https://example.org" CORO_CLOSED] 1
                    ["https://example.org"] [])))
       = requests
           (MkWorld 5
              (TTLCache.Make 1000 300
                 [TTLCache.Entry (0, "https://example.org") 0 300%N])
              [Coroutine 0 "https://example.org" CORO_CLOSED] 1
              ["https://example.org"] []).
Proof.
  apply (@extract_emails_from_page_on_cache_hit 0 "https://example.org" EMAIL_REGEX
           (fun _ => alone (TransportError "")) 0
           (MkWorld 5
              (TTLCache.Make 1000 300
                 [TTLCache.Entry (0, "https://example.org") 0 300%N])
              [Coroutine 0 "https://example.org" CORO_CLOSED] 1
              ["https://example.org"] [])
           0 0 "https://example.org" CORO_CLOSED).
  - reflexivity.
  - reflexivity.
  - discriminate.
Defined.

Lemma contains_empty hay : Str.contains EmptyString hay = true.
Proof. destruct hay; reflexivity. Qed.

Lemma filter_all_true {X} (p : X -> bool) l :
  (forall x, p x = true) -> filter p l = l.
Proof.
  intros H. induction l as [|x l IH]; simpl; [reflexivity|].
  rewrite H, IH. reflexivity.
Qed.

Lemma filter_none {X} (p : X -> bool) l :
  (forall x, p x = false) -> filter p l = [].
Proof.
  intros H. induction l as [|x l IH]; simpl; [reflexivity|].
  rewrite H, IH. reflexivity.
Qed.

(** X10.  The two ends of the keyword list.  When the page was fetched
    and parsed, the link discoverer returns no candidate for an empty
    keyword list, and every link of the page, in order, as soon as the
    empty string is among the keywords. *)
Theorem get_contact_page_urls_keyword_edges
        parser session main_url keywords env n w html hrefs :
  result_of (run (await_fetch session main_url) env n w) = inr html ->
  parser html = inr hrefs ->
  (keywords = [] ->
   result_of (run (get_contact_page_urls parser session main_url keywords) env n w)
   = inr [])
  /\ (In EmptyString keywords ->
      result_of (run (get_contact_page_urls parser session main_url keywords)
                     env n w)
      = inr hrefs).
Proof.
  intros Hfetch Hparse. rewrite run_get_contact_page_urls, Hfetch, Hparse. split.
  - intros ->. f_equal. apply filter_none. intros href. reflexivity.
  - intros Hin. f_equal. apply filter_all_true. intros href.
    unfold any_keyword_in. apply existsb_exists.
    exists EmptyString. split; [exact Hin|apply contains_empty].
Qed.

Lemma get_contact_page_urls_keyword_edges_witness :
  ([""] = [] ->
   result_of (run (get_contact_page_urls Demo.find_all_a_href 0
                                         "https://example.org" [""])
                  (fun _ => alone (HttpResponse 200 "OK" Demo.home))
                  0 initial_world)
   = inr [])
  /\ (In EmptyString [""] ->
      result_of (run (get_contact_page_urls Demo.find_all_a_href 0
                                            "https://example.org" [""])
                     (fun _ => alone (HttpResponse 200 "OK" Demo.home))
                     0 initial_world)
      = inr ["/contact-us"]).
Proof.
  apply (@get_contact_page_urls_keyword_edges Demo.find_all_a_href 0
           "https://example.org" [""]
           (fun _ => alone (HttpResponse 200 "OK" Demo.home)) 0 initial_world
           Demo.home ["/contact-us"]).
  - reflexivity.
  - reflexivity.
Defined.

(** X11.  A seed whose home page has no link with a keyword gets the
    empty list: when the link discoverer returns no candidate, the URL
    processor returns the seed with no list of matches and waits for
    nothing more. *)
Theorem process_kerk_url_without_candidates
        parser session kerk_url keywords regex env n w :
  result_of (run (get_contact_page_urls parser session kerk_url keywords) env n w)
  = inr [] ->
  result_of (run (process_kerk_url parser session kerk_url keywords regex) env n w)
  = inr (kerk_url, [])
  /\ next_of (run (process_kerk_url parser session kerk_url keywords regex) env n w)
     = next_of (run (get_contact_page_urls parser session kerk_url keywords)
                    env n w).
Proof.
  intros H. unfold process_kerk_url.
  change (contact_pages <- ?c ;; ?k) with (bind c (fun contact_pages => k)).
  rewrite run_bind.
  destruct (run (get_contact_page_urls parser session kerk_url keywords) env n w)
    as [[n1 w1] r1].
  unfold result_of in H. simpl in H. subst r1. split; reflexivity.
Qed.

Lemma process_kerk_url_without_candidates_witness :
  result_of (run (process_kerk_url Demo.find_all_a_href 0 "https://example.org"
                                   contact_page_keywords EMAIL_REGEX)
                 (fun _ => alone (TransportError "timed out")) 0 initial_world)
  = inr ("https://example.org", [])
  /\ next_of (run (process_kerk_url Demo.find_all_a_href 0 "https://example.org"
                                    contact_page_keywords EMAIL_REGEX)
                  (fun _ => alone (TransportError "timed out")) 0 initial_world)
     = next_of (run (get_contact_page_urls Demo.find_all_a_href 0
                                           "https://example.org"
                                           contact_page_keywords)
                    (fun _ => alone (TransportError "timed out")) 0 initial_world).
Proof.
  apply (@process_kerk_url_without_candidates Demo.find_all_a_href 0
           "https://example.org" contact_page_keywords EMAIL_REGEX
           (fun _ => alone (TransportError "timed out")) 0 initial_world).
  reflexivity.
Defined.

(* ===================================================================== *)
(** ** Further properties of the batch runner *)
(* ===================================================================== *)

(** X12.  [main] never ends with an exception, and what it returns holds
    nothing but addresses and the two error texts: with the pattern of
    the script, every string in the lists of every seed is of the form
    local@domain.tld or is the text of the error of awaiting a coroutine
    again. *)
Theorem main_returns_addresses_or_error_texts
        parser kerk_urls keywords env fuel w w' r :
  main parser kerk_urls keywords EMAIL_REGEX env fuel w = Some (w', r) ->
  exists d,
    r = inr d
    /\ forall u values page s,
         In (u, values) d -> In page values -> In s page ->
         email_shape s \/ await_error s.
Proof.
  intros H. apply main_result in H.
  destruct H as (d & Hd & _ & _ & Hval).
  exists d. split; [exact Hd|].
  intros u values page s Hu Hp Hs.
  unfold dict_values_ok in Hval. rewrite Forall_forall in Hval.
  pose proof (Hval _ Hu) as H1. simpl in H1. rewrite Forall_forall in H1.
  pose proof (H1 _ Hp) as H2. rewrite Forall_forall in H2.
  destruct (H2 _ Hs) as [Hw|He]; [left; apply whole_match_email_shape; exact Hw|].
  right. exact He.
Qed.

Lemma main_returns_addresses_or_error_texts_witness :
  exists d,
    @inr PyExc Dict [("https://example.org", [["info@example.org"]])] = inr d
    /\ forall u values page s,
         In (u, values) d -> In page values -> In s page ->
         email_shape s \/ await_error s.
Proof.
  eapply (@main_returns_addresses_or_error_texts Demo.find_all_a_href
            ["https://example.org"] contact_page_keywords Demo.web 3 initial_world).
  vm_compute. reflexivity.
Defined.

(* ===================================================================== *)
(** ** Further properties of the table *)
(* ===================================================================== *)

Lemma rows_length kerk_emails :
  length (rows kerk_emails)
  = list_sum (map (fun kv => length (snd kv)) kerk_emails).
Proof.
  unfold rows. induction kerk_emails as [|[key values] d IH]; simpl; [reflexivity|].
  rewrite length_app, length_map, IH. reflexivity.
Qed.

(** X13.  The rows of line 139 are one for each contact page: a seed
    gives as many rows as it has lists of matches, every row holds such
    a list, and no row holds [None]; so a seed without contact pages
    gives no row. *)
Theorem rows_one_per_contact_page kerk_emails :
  length (rows kerk_emails)
  = list_sum (map (fun kv => length (snd kv)) kerk_emails)
  /\ (forall u c, In (u, c) (rows kerk_emails) ->
                  c <> PyNone
                  /\ exists values value,
                       In (u, values) kerk_emails /\ In value values
                       /\ c = Items value)
  /\ (forall u values value,
         In (u, values) kerk_emails -> In value values ->
         In (u, Items value) (rows kerk_emails)).
Proof.
  split; [apply rows_length|]. split.
  - intros u c H. apply rows_In in H.
    destruct H as (values & value & Hd & Hv & ->).
    split; [discriminate|eauto].
  - intros u values value Hd Hv. unfold rows. apply in_flat_map.
    exists (u, values). split; [exact Hd|]. simpl.
    apply in_map_iff. exists value. split; [|exact Hv].
    destruct values; [contradiction|reflexivity].
Qed.

Lemma df_exploded_has_text kerk_emails u values page s :
  In (u, values) kerk_emails -> In page values -> In s page ->
  exists i, In (MkRow i u (Text s)) (df_exploded kerk_emails).
Proof.
  intros Hd Hp Hs.
  assert (Hrow : In (u, Items page) (rows kerk_emails)).
  { unfold rows. apply in_flat_map. exists (u, values). split; [exact Hd|].
    simpl. apply in_map_iff. exists page. split; [|exact Hp].
    destruct values; [contradiction|reflexivity]. }
  destruct (DataFrame_from_has _ _ _ Hrow 0) as (i & Hi).
  exists i. unfold df_exploded, explode. apply in_flat_map.
  exists (MkRow i u (Items page)). split; [exact Hi|].
  unfold explode_row. simpl.
  destruct page as [|s0 page]; [contradiction|].
  apply in_map_iff. exists s. auto.
Qed.

(** X14.  The final table invents nothing: every row of it has the URL
    of a seed of the dictionary and, as its e-mail, a string from one of
    the lists of that seed. *)
Theorem df_rows_come_from_the_results kerk_emails r :
  In r (df kerk_emails) ->
  exists values page s,
    In (url r, values) kerk_emails /\ In page values /\ In s page
    /\ email r = Text s.
Proof.
  intros H. apply df_In in H. destruct H as [Hex (s & Hs & _)].
  apply df_exploded_In in Hex.
  destruct Hex as (values & page & Hd & Hp & [[_ Hnan]|(s' & Hin & Heq)]);
    [congruence|].
  exists values, page, s'. auto.
Qed.

Lemma df_rows_come_from_the_results_witness :
  exists values page s,
    In (url (MkRow 0 "https://example.org" (Text "info@example.org")), values)
       [("https://example.org", [["info@example.org"]])]
    /\ In page values /\ In s page
    /\ email (MkRow 0 "https://example.org" (Text "info@example.org")) = Text s.
Proof.
  apply (@df_rows_come_from_the_results
           [("https://example.org", [["info@example.org"]])]
           (MkRow 0 "https://example.org" (Text "info@example.org"))).
  simpl. left. reflexivity.
Defined.

(** X15.  The final table loses no address: every string of the
    dictionary in which the e-mail pattern finds a match is the e-mail
    of a row of the final table. *)
Theorem df_keeps_every_validated_string kerk_emails u values page s :
  In (u, values) kerk_emails -> In page values -> In s page ->
  Re.search EMAIL_REGEX s = true ->
  In (Text s) (map email (df kerk_emails)).
Proof.
  intros Hd Hp Hs Hm.
  destruct (df_exploded_has_text _ _ _ _ _ Hd Hp Hs) as (i & Hi).
  assert (Hv : In (MkRow i u (Text s)) (df_validated kerk_emails)).
  { unfold df_validated. apply filter_In. split; [exact Hi|exact Hm]. }
  destruct (drop_duplicates_seen_covers [] _ _ Hv) as [[]|H]. exact H.
Qed.

Lemma df_keeps_every_validated_string_witness :
  In (Text "info@example.org")
     (map email
          (df [("https://example.org", [["oops"; "info@example.org"]]);
               ("https://example.com", [["info@example.org"]])])).
Proof.
  apply (@df_keeps_every_validated_string
           [("https://example.org", [["oops"; "info@example.org"]]);
            ("https://example.com", [["info@example.org"]])]
           "https://example.com" [["info@example.org"]] ["info@example.org"]
           "info@example.org").
  - simpl. right. left. reflexivity.
  - simpl. left. reflexivity.
  - simpl. left. reflexivity.
  - reflexivity.
Defined.

Lemma drop_duplicates_seen_again seen seen' t :
  (forall c, In c seen' -> In c seen) ->
  drop_duplicates_seen seen' (drop_duplicates_seen seen t)
  = drop_duplicates_seen seen t.
Proof.
  revert seen seen'. induction t as [|r t IH]; simpl; intros seen seen' Hsub;
    [reflexivity|].
  destruct (existsb (Cell_eqb (email r)) seen) eqn:E; [apply IH; exact Hsub|].
  simpl.
  destruct (existsb (Cell_eqb (email r)) seen') eqn:E'.
  - apply existsb_Cell_In in E'. apply Hsub in E'.
    apply existsb_Cell_In in E'. congruence.
  - f_equal. apply IH. intros c [<-|Hc]; [left; reflexivity|right; auto].
Qed.

Lemma filter_keeps_all {X} (p : X -> bool) l :
  (forall x, In x l -> p x = true) -> filter p l = l.
Proof.
  intros H. induction l as [|x l IH]; simpl; [reflexivity|].
  rewrite (H x (or_introl eq_refl)), IH; [reflexivity|].
  intros y Hy. apply H. right. exact Hy.
Qed.

(** X16.  Lines 147 and 148 have nothing left to do on the table they
    made: validating the final table again keeps every row, and
    removing duplicates from it again keeps every row. *)
Theorem df_is_stable kerk_emails :
  filter (fun r => str_contains EMAIL_REGEX (email r)) (df kerk_emails)
  = df kerk_emails
  /\ drop_duplicates (df kerk_emails) = df kerk_emails.
Proof.
  split.
  - apply filter_keeps_all. intros r Hr. apply df_In in Hr.
    destruct Hr as [_ (s & Hs & Hm)]. rewrite Hs. exact Hm.
  - unfold df, drop_duplicates. apply drop_duplicates_seen_again. auto.
Qed.

(* ===================================================================== *)
(** ** A further property of the seeds *)
(* ===================================================================== *)

(** X17.  Line 130 removes no duplicates: a website that [is_url]
    accepts is a seed as often as the directory lists it, and a website
    that it rejects is no seed at all. *)
Theorem kerk_urls_keeps_duplicates pkn_kerken u :
  count_occ string_dec (kerk_urls pkn_kerken) u
  = if is_url u then count_occ string_dec (map website pkn_kerken) u else 0.
Proof.
  unfold kerk_urls. induction pkn_kerken as [|k ks IH]; simpl.
  - destruct (is_url u); reflexivity.
  - destruct (is_url (website k)) eqn:Ek; simpl.
    + destruct (string_dec (website k) u) as [E|E]; rewrite IH.
      * subst u. rewrite Ek. reflexivity.
      * reflexivity.
    + rewrite IH. destruct (string_dec (website k) u) as [E|E]; [|reflexivity].
      subst u. rewrite Ek. reflexivity.
Qed.

(* ===================================================================== *)
(** ** Further properties: eviction, and the requests of one seed *)
(* ===================================================================== *)

Lemma setitem_when_full k (v : nat) time (c : TTLCache.t CacheKey nat) :
  absent key_eqb k (TTLCache.entries c) ->
  (forall e, In e (TTLCache.entries c) -> TTLCache.live time e = true) ->
  length (TTLCache.entries c) = TTLCache.maxsize c ->
  TTLCache.maxsize c <> 0 ->
  TTLCache.entries (TTLCache.setitem key_eqb k v time c)
  = tl (TTLCache.entries c) ++ [TTLCache.Entry k v (time + TTLCache.ttl c)%N].
Proof.
  intros Habs Hlive Hfull Hmax.
  unfold TTLCache.setitem, TTLCache.expire, TTLCache.make_room, TTLCache.with_entries.
  cbn [TTLCache.entries TTLCache.maxsize TTLCache.ttl].
  rewrite (filter_keeps_all _ _ Hlive).
  destruct (Nat.eqb_spec (TTLCache.maxsize c) 0) as [E|_]; [congruence|].
  rewrite (absent_existsb Habs).
  cbn [TTLCache.entries TTLCache.maxsize TTLCache.ttl].
  rewrite Hfull.
  replace (S (TTLCache.maxsize c) - TTLCache.maxsize c) with 1 by lia.
  destruct (TTLCache.entries c); reflexivity.
Qed.

(** X18.  When the cache is full of live entries and has none for the
    key, a call of [fetch] puts out the entry that was used least
    recently (the first one) and keeps the new coroutine object as the
    most recently used entry, with a full time to live. *)
Theorem fetch_evicts_least_recently_used session url env n w :
  absent key_eqb (hashkey session url) (TTLCache.entries (cache w)) ->
  (forall e, In e (TTLCache.entries (cache w)) -> TTLCache.live (now w) e = true) ->
  length (TTLCache.entries (cache w)) = TTLCache.maxsize (cache w) ->
  TTLCache.maxsize (cache w) <> 0 ->
  TTLCache.entries (cache (world_of (run (fetch session url) env n w)))
  = tl (TTLCache.entries (cache w))
    ++ [TTLCache.Entry (hashkey session url) (length (coroutines w))
                       (now w + TTLCache.ttl (cache w))%N].
Proof.
  intros Habs Hlive Hfull Hmax. unfold fetch. simpl.
  unfold TTLCache.getitem. rewrite (absent_find_none Habs). simpl.
  unfold world_of. simpl. apply setitem_when_full; assumption.
Qed.

Lemma fetch_evicts_least_recently_used_witness :
  TTLCache.entries
    (cache (world_of
              (run (fetch 0 "https://example.org")
                   (fun _ => alone (TransportError "")) 0
                   (MkWorld 7
                      (TTLCache.Make 1000 300
                         (map (fun i => TTLCache.Entry (i, "https://example.org") i 300%N)
                              (seq 1 1000)))
                      [] 1001 [] []))))
  = tl (TTLCache.entries
          (cache (MkWorld 7
                    (TTLCache.Make 1000 300
                       (map (fun i => TTLCache.Entry (i, "https://example.org") i 300%N)
                            (seq 1 1000)))
                    [] 1001 [] [])))
    ++ [TTLCache.Entry (hashkey 0 "https://example.org")
          (length (coroutines
                     (MkWorld 7
                        (TTLCache.Make 1000 300
                           (map (fun i =>
                                   TTLCache.Entry (i, "https://example.org") i 300%N)
                                (seq 1 1000)))
                        [] 1001 [] [])))
          (now (MkWorld 7
                  (TTLCache.Make 1000 300
                     (map (fun i => TTLCache.Entry (i, "https://example.org") i 300%N)
                          (seq 1 1000)))
                  [] 1001 [] [])
           + TTLCache.ttl
               (cache (MkWorld 7
                         (TTLCache.Make 1000 300
                            (map (fun i =>
                                    TTLCache.Entry (i, "https://example.org") i 300%N)
                                 (seq 1 1000)))
                         [] 1001 [] [])))%N].
Proof.
  apply (@fetch_evicts_least_recently_used 0 "https://example.org"
           (fun _ => alone (TransportError "")) 0
           (MkWorld 7
              (TTLCache.Make 1000 300
                 (map (fun i => TTLCache.Entry (i, "https://example.org") i 300%N)
                      (seq 1 1000)))
              [] 1001 [] [])).
  - intros e He. cbn [cache TTLCache.entries] in He.
    apply in_map_iff in He. destruct He as (i & <- & Hi). apply in_seq in Hi.
    unfold TTLCache.has_key, key_eqb, hashkey. cbn [TTLCache.key fst snd].
    destruct (Nat.eqb_spec 0 i); [lia|reflexivity].
  - intros e He. cbn [cache TTLCache.entries] in He.
    apply in_map_iff in He. destruct He as (i & <- & Hi). reflexivity.
  - cbn [cache TTLCache.entries TTLCache.maxsize].
    rewrite length_map, length_seq. reflexivity.
  - cbn [cache TTLCache.maxsize]. lia.
Defined.

(** The requests of a run grow by [l]. *)
Lemma await_fetch_requests session url os n w :
  exists l,
    requests (world_of (run (await_fetch session url) (fun i => alone (os i)) n w))
    = requests w ++ l
    /\ length l <= 1.
Proof.
  unfold await_fetch, fetch. simpl.
  destruct (TTLCache.getitem key_eqb (hashkey session url) (now w) (cache w))
    as [[v|] c']; simpl.
  - destruct (nth_error (coroutines w) v) as [[s u [| |]]|]; simpl.
    + destruct (os n) as [st rs b|msg]; simpl;
        [unfold raise_for_status; simpl; destruct (400 <=? st); simpl|];
        exists [u]; unfold world_of; simpl; auto.
    + exists []. unfold world_of. simpl. rewrite app_nil_r. auto.
    + exists []. unfold world_of. simpl. rewrite app_nil_r. auto.
    + exists []. unfold world_of. simpl. rewrite app_nil_r. auto.
  - rewrite nth_error_snoc. simpl.
    destruct (os n) as [st rs b|msg]; simpl;
      [unfold raise_for_status; simpl; destruct (400 <=? st); simpl|];
      exists [url]; unfold world_of; simpl; auto.
Qed.

Lemma run_extract_requests session url regex env n w :
  requests (world_of (run (extract_emails_from_page session url regex) env n w))
  = requests (world_of (run (await_fetch session url) env n w)).
Proof.
  unfold extract_emails_from_page, await_fetch.
  rewrite run_catch, !run_bind.
  destruct (run (fetch session url) env n w) as [[n1 w1] [e|c]]; [reflexivity|].
  rewrite run_bind.
  destruct (run (await c) env n1 w1) as [[n2 w2] [e|html]]; reflexivity.
Qed.

Lemma run_get_contact_page_urls_requests parser session main_url keywords env n w :
  requests (world_of (run (get_contact_page_urls parser session main_url keywords)
                          env n w))
  = requests (world_of (run (await_fetch session main_url) env n w)).
Proof.
  unfold get_contact_page_urls, await_fetch.
  rewrite run_catch, !run_bind.
  destruct (run (fetch session main_url) env n w) as [[n1 w1] [e|c]]; [reflexivity|].
  rewrite run_bind.
  destruct (run (await c) env n1 w1) as [[n2 w2] [e|html]]; [reflexivity|].
  rewrite run_bind. unfold BeautifulSoup, world_of. simpl.
  destruct (parser html) as [e|hrefs]; reflexivity.
Qed.

Lemma for_each_extract_requests session regex os pages : forall n w,
  exists l,
    requests
      (world_of (run (for_each (fun page => extract_emails_from_page session page regex)
                               pages)
                     (fun i => alone (os i)) n w))
    = requests w ++ l
    /\ length l <= length pages.
Proof.
  induction pages as [|page pages IH]; intros n w.
  - exists []. unfold world_of. simpl. rewrite app_nil_r. auto.
  - cbn [for_each]. rewrite run_bind.
    pose proof (run_extract_requests session page regex (fun i => alone (os i)) n w)
      as Hreq.
    destruct (await_fetch_requests session page os n w) as (l1 & Hl1 & Hlen1).
    rewrite <- Hreq in Hl1.
    pose proof (Always_run (fun i => alone (os i)) n w
                  (extract_emails_from_page_returns session page regex)) as [y Hy].
    destruct (run (extract_emails_from_page session page regex)
                  (fun i => alone (os i)) n w) as [[n1 w1] r].
    unfold result_of in Hy. unfold world_of in Hl1. simpl in Hy, Hl1. subst r.
    rewrite run_bind.
    destruct (IH n1 w1) as (l2 & Hl2 & Hlen2).
    destruct (run (for_each (fun page0 => extract_emails_from_page session page0 regex)
                            pages)
                  (fun i => alone (os i)) n1 w1) as [[n2 w2] [e|ys]];
      unfold world_of in *; simpl in *; exists (l1 ++ l2);
      rewrite Hl2, Hl1, <- app_assoc, length_app; split; auto; simpl; lia.
Qed.

(** X19.  The network traffic of one seed is bounded by what it found:
    run on its own, the URL processor sends at most one request for the
    seed and at most one for each contact candidate, and takes away none
    of the requests sent before. *)
Theorem process_kerk_url_requests_bounded
        parser session kerk_url keywords regex os n w :
  exists contact_pages sent,
    result_of (run (get_contact_page_urls parser session kerk_url keywords)
                   (fun i => alone (os i)) n w)
    = inr contact_pages
    /\ requests (world_of (run (process_kerk_url parser session kerk_url keywords
                                                 regex)
                               (fun i => alone (os i)) n w))
       = requests w ++ sent
    /\ length sent <= 1 + length contact_pages.
Proof.
  unfold process_kerk_url.
  change (contact_pages <- ?c ;; ?k) with (bind c (fun contact_pages => k)).
  rewrite run_bind.
  pose proof (run_get_contact_page_urls_requests parser session kerk_url keywords
                (fun i => alone (os i)) n w) as Hreq.
  destruct (await_fetch_requests session kerk_url os n w) as (l1 & Hl1 & Hlen1).
  rewrite <- Hreq in Hl1.
  destruct (Always_run (fun i => alone (os i)) n w
              (get_contact_page_urls_returns parser session kerk_url keywords))
    as (pages & Hpages).
  destruct (run (get_contact_page_urls parser session kerk_url keywords)
                (fun i => alone (os i)) n w) as [[n1 w1] r1].
  unfold result_of in Hpages. unfold world_of in Hl1. simpl in Hpages, Hl1. subst r1.
  destruct (for_each_extract_requests session regex os pages n1 w1)
    as (l2 & Hl2 & Hlen2).
  exists pages, (l1 ++ l2). split; [reflexivity|].
  rewrite run_bind.
  destruct (run (for_each (fun page => extract_emails_from_page session page regex)
                          pages)
                (fun i => alone (os i)) n1 w1) as [[n2 w2] [e|ys]];
    unfold world_of in *; simpl in *;
    rewrite Hl2, Hl1, <- app_assoc, length_app; split; auto; lia.
Qed.
